(** * dagger: composite steps, cycle validation and execution

    A shallow embedding of the Go package [dagger] (dag.go, step.go,
    the Result step, the middleware chain and the error types).

    Two views of a step are used, as the Go code itself uses two:

    - validation ([New], [checkDAGRecursive]) looks only at the identity of
      a step value (the text printed by [%p]) and at what its [Unwrap]
      method returns.  Go step values are pointers into a mutable heap, and
      a cycle can only exist there, so this part is modelled over a store
      [gmap addr node];
    - execution ([Exec], [execWithContext], the middleware chain) looks only
      at behaviour.  A Go interface value is modelled by the record of what
      its methods return, and side effects by a state monad over the
      caller's world.

    Where a property speaks of every place in which a step can stand, the
    constructors of the package are collected in a syntax of step trees
    ([plan], [build]).

    Step values are assumed non-nil unless a definition says otherwise. *)

From stdpp Require Import gmap strings list relations.

Open Scope string_scope.
Open Scope list_scope.
Open Scope nat_scope.
Set Warnings "-register-all,-clear-no-such-hyp".

(** ** Errors *)

(** The error values the package builds or passes on.  [userError] stands
    for an error made by the caller (an [errors.New] value, identified by
    [id]); [wrapError] is what [fmt.Errorf] with a [%w] verb returns and
    [joinError] what [errors.Join] returns. *)
Inductive error : Type :=
| userError (id : nat) (msg : string)
| wrapError (msg : string) (err : error)
| joinError (errs : list error)
| ErrCycle (stepName : string)
| ErrInvalid (err : error).

(** ** Step graphs in the store *)

Abbreviation addr := positive.

(** Shape of a [ResultFailureHandler]: the steps it may select. *)
Inductive handlerNode : Type :=
| hStepFunc (f : addr)
| hFailureBranch (step : addr)
| hDefaultBranch (step : addr)
| hMulti (branches : list handlerNode).

(** One constructor per concrete step type of the package.  Conditions and
    function bodies are left out: validation never calls them.  The address
    of a step is what [%p] prints for it: the pointer for the struct steps,
    the code pointer for the two function types (which have no [Unwrap], so
    they are put in [visited] and taken out again at once). *)
Inductive node : Type :=
| NStepFunc (fname : string)
| NStepWithErr (fname : string)
| NIf (thenStep : addr)
| NIfElse (thenStep elseStep : addr)
| NSeries (steps : list addr)
| NContinue (steps : list addr)
| NResult (mainStep successStep : addr) (failureHandler : option handlerNode).

(** The two [Unwrap] signatures the type switch of [checkDAGRecursive]
    tests for, and the case where neither is implemented. *)
Inductive unwrapped : Type :=
| NoUnwrap
| UnwrapOne (child : addr)
| UnwrapMany (children : list addr).

Definition Unwrap (n : node) : unwrapped :=
  match n with
  | NStepFunc _ | NStepWithErr _ => NoUnwrap
  | NIf thenStep => UnwrapOne thenStep
  | NIfElse thenStep elseStep => UnwrapMany [thenStep; elseStep]
  | NSeries steps => UnwrapMany steps
  | NContinue steps => UnwrapMany steps
  | NResult mainStep successStep _ => UnwrapMany [mainStep; successStep]
  end.

Definition unwrap_list (n : node) : list addr :=
  match Unwrap n with
  | NoUnwrap => []
  | UnwrapOne c => [c]
  | UnwrapMany cs => cs
  end.

(** [Executor]: the start step and the registered middlewares. *)
Record Executor (St Mw : Type) : Type := mkExecutor {
  start : St;
  middlewares : list Mw
}.
Arguments mkExecutor {St Mw} _ _.
Arguments start {St Mw} _.
Arguments middlewares {St Mw} _.

(** What one call of [checkDAGRecursive] does: return nil and leave the
    shared map [visited] behind, return an error, or panic on a nil step.
    [OutOfFuel] belongs to the model only; [checkDAGCycles_fuel] shows
    that [checkDAGCycles] never produces it. *)
Inductive checked : Type :=
| Passed (visited : gset addr)
| Failed (err : error)
| NilStep
| OutOfFuel.

Section Validation.

(** Name of the type argument [S], as it appears in a step's display
    identifier, and the type of the registered middlewares. *)
Variable S_name : string.
Variable Mw : Type.

(** [stepTypeName] for the generic step structs of the package:
    [GenericScopedName.String] prints package, struct and type argument. *)
Definition stepTypeName (struct : string) : string :=
  "dagger:" +:+ struct +:+ "[" +:+ S_name +:+ "]".

(** [StepName] of a stored step. *)
Definition nodeName (n : node) : string :=
  match n with
  | NStepFunc fname => fname
  | NStepWithErr _ => stepTypeName "stepWithErr"
  | NIf _ => stepTypeName "ifStep"
  | NIfElse _ _ => stepTypeName "ifElseStep"
  | NSeries _ => stepTypeName "seriesStep"
  | NContinue _ => stepTypeName "continueStep"
  | NResult _ _ _ => stepTypeName "resultStep"
  end.

Local Abbreviation heap := (gmap addr node).

(** The [for] loop over [s.Unwrap()]: stop at the first child that does
    not return nil. *)
Fixpoint checkChildren (rec : addr → gset addr → checked)
    (children : list addr) (visited : gset addr) : checked :=
  match children with
  | [] => Passed visited
  | childStep :: rest =>
      match rec childStep visited with
      | Passed visited' => checkChildren rec rest visited'
      | r => r
      end
  end.

Fixpoint checkDAGRecursive (fuel : nat) (h : heap) (step : addr)
    (visited : gset addr) : checked :=
  match fuel with
  | O => OutOfFuel
  | S fuel' =>
      match h !! step with
      | None => NilStep
      | Some n =>
          let name := nodeName n in
          if decide (step ∈ visited) then Failed (ErrCycle name)
          else
            let visited := {[step]} ∪ visited in
            match Unwrap n with
            | UnwrapOne child => checkDAGRecursive fuel' h child visited
            | UnwrapMany children =>
                match checkChildren (checkDAGRecursive fuel' h) children visited with
                | Passed visited' => Passed (visited' ∖ {[step]})
                | r => r
                end
            | NoUnwrap => Passed (visited ∖ {[step]})
            end
      end
  end.

Definition checkDAGCycles (h : heap) (step : addr) : checked :=
  checkDAGRecursive (S (size h)) h step ∅.

(** [New]: [None] when the call does not return (nil step), otherwise the
    pair of results. *)
Definition New (h : heap) (startStep : addr)
    : option (option (Executor addr Mw) * option error) :=
  match checkDAGCycles h startStep with
  | Passed _ => Some (Some (mkExecutor startStep []), None)
  | Failed err => Some (None, Some (ErrInvalid err))
  | NilStep | OutOfFuel => None
  end.

(** The children structure as a relation. *)
Definition edge (h : heap) (a b : addr) : Prop :=
  ∃ n, h !! a = Some n ∧ b ∈ unwrap_list n.

(** Every step reachable from [a] is a step of the store (no nil child). *)
Definition closed_from (h : heap) (a : addr) : Prop :=
  ∀ b, rtc (edge h) a b → is_Some (h !! b).

End Validation.

(** ** Side effects

    Steps, selectors and interceptors are Go closures: they may change the
    caller's world (counters, buffers, the data behind the state value).
    [M W A] is a computation that returns an [A] and the new world. *)

Definition M (W A : Type) : Type := W → A * W.

Definition ret {W A : Type} (a : A) : M W A := fun w => (a, w).

Definition bind {W A B : Type} (c : M W A) (k : A → M W B) : M W B :=
  fun w => let (a, w') := c w in k a w'.

Notation "'do' x <- c ; k" := (bind c (fun x => k))
  (at level 10, x name, c at level 100, k at level 200).

(** ** errors.Join, fmt.Errorf, errors.Is, errors.As *)

Definition newline : string := String (Ascii.ascii_of_nat 10) EmptyString.

Fixpoint Error (e : error) : string :=
  match e with
  | userError _ msg => msg
  | wrapError msg _ => msg
  | joinError errs =>
      (fix lines (l : list error) : string :=
         match l with
         | [] => ""
         | [e'] => Error e'
         | e' :: l' => Error e' +:+ newline +:+ lines l'
         end) errs
  | ErrCycle stepName => "dagger: cycle detected at step '" +:+ stepName +:+ "'"
  | ErrInvalid err => Error err
  end.

(** [errors.Join]: nil arguments are dropped; nil when nothing is left. *)
Definition errors_Join (errs : list (option error)) : option error :=
  match omap id errs with
  | [] => None
  | es => Some (joinError es)
  end.

(** [fmt.Errorf("error executing step %s: %w", name, err)]. *)
Definition errorf_executing (name : string) (err : error) : error :=
  wrapError ("error executing step " +:+ name +:+ ": " +:+ Error err) err.

(** Equality of error values.  Go compares the error objects themselves;
    caller errors carry their identity in [id]. *)
Fixpoint error_eqb (a b : error) : bool :=
  match a, b with
  | userError i m, userError j m' => bool_decide (i = j) && bool_decide (m = m')
  | wrapError m e, wrapError m' e' => bool_decide (m = m') && error_eqb e e'
  | joinError es, joinError es' =>
      (fix all2 (l l' : list error) : bool :=
         match l, l' with
         | [], [] => true
         | x :: r, x' :: r' => error_eqb x x' && all2 r r'
         | _, _ => false
         end) es es'
  | ErrCycle n, ErrCycle n' => bool_decide (n = n')
  | ErrInvalid e, ErrInvalid e' => error_eqb e e'
  | _, _ => false
  end.

(** [errors.Is]: the error itself, then what its [Unwrap] gives, depth
    first. *)
Fixpoint errors_Is (err target : error) : bool :=
  error_eqb err target ||
  match err with
  | wrapError _ e => errors_Is e target
  | joinError es => existsb (fun e => errors_Is e target) es
  | ErrInvalid e => errors_Is e target
  | _ => false
  end.

(** [errors.As] with a target of type [*ErrCycle]: the step name of the
    first [ErrCycle] in the tree. *)
Fixpoint errors_As_ErrCycle (err : error) : option string :=
  match err with
  | ErrCycle n => Some n
  | wrapError _ e => errors_As_ErrCycle e
  | ErrInvalid e => errors_As_ErrCycle e
  | joinError es =>
      (fix first (l : list error) : option string :=
         match l with
         | [] => None
         | e :: l' =>
             match errors_As_ErrCycle e with
             | Some n => Some n
             | None => first l'
             end
         end) es
  | userError _ _ => None
  end.

(** The failures a joined error was built from, left to right. *)
Fixpoint join_leaves (e : error) : list error :=
  match e with
  | joinError es => flat_map join_leaves es
  | _ => [e]
  end.

(** ** Execution context *)

Inductive ctxKey : Type := middlewareKey | resultErrKey.

Global Instance ctxKey_eq_dec : EqDecision ctxKey.
Proof. solve_decision. Defined.

Inductive ctxValue (Mw : Type) : Type :=
| chainValue (chain : list Mw)
| errorValue (err : error).
Arguments chainValue {Mw} _.
Arguments errorValue {Mw} _.

(** A [context.Context] as the chain of [WithValue] bindings, innermost
    first; [context.TODO()] is the empty chain. *)
Definition context (Mw : Type) : Type := list (ctxKey * ctxValue Mw).

Definition WithValue {Mw} (ctx : context Mw) (key : ctxKey) (val : ctxValue Mw)
    : context Mw :=
  (key, val) :: ctx.

Fixpoint Value {Mw} (ctx : context Mw) (key : ctxKey) : option (ctxValue Mw) :=
  match ctx with
  | [] => None
  | (k, v) :: parent => if decide (k = key) then Some v else Value parent key
  end.

Definition withMiddlewares {Mw} (ctx : context Mw) (chain : list Mw) : context Mw :=
  WithValue ctx middlewareKey (chainValue chain).

Definition resultErrToContext {Mw} (ctx : context Mw) (err : error) : context Mw :=
  WithValue ctx resultErrKey (errorValue err).

Definition resultErrFromContext {Mw} (ctx : context Mw) : option error :=
  match Value ctx resultErrKey with
  | Some (errorValue err) => Some err
  | _ => None
  end.

(** ** Steps *)

Record Info : Type := mkInfo { Name : string; CanSkip : bool }.

(** A value of interface type [Step]: its [Exec] method, what [StepName]
    returns for it and what the helper [canSkip] returns for it. *)
Record Step (S W Mw : Type) : Type := mkStep {
  Exec : context Mw → S → M W (option error);
  StepName : string;
  canSkip : bool
}.
Arguments mkStep {S W Mw} _ _ _.
Arguments Exec {S W Mw} _ _ _.
Arguments StepName {S W Mw} _.
Arguments canSkip {S W Mw} _.

(** A Go function value together with the name the runtime symbol table
    has for it, which is what [StepName] shows for a [StepFunc]. *)
Record func (A : Type) : Type := mkFunc { func_name : string; call : A }.
Arguments mkFunc {A} _ _.
Arguments func_name {A} _.
Arguments call {A} _.

(** What reflection knows about the type argument [S]: its name, and the
    display identifier that [stepFuncName] derives for the function value
    that [stepWithErr.Exec] makes of [f.exec] (the runtime names it after
    the enclosing method). *)
Class StateType (S : Type) : Type := {
  S_name : string;
  exec_fm_name : string
}.

(** The interface [middleware]: [apply(next, info)].  The receiver is kept
    abstract since a context holds the chain and steps take a context. *)
Class middleware (S W Mw : Type) : Type :=
  middleware_apply : Mw → Step S W Mw → Info → Step S W Mw.

Definition Selector (S W : Type) : Type := S → M W bool.

Definition FailureSelector (W Mw : Type) : Type := context Mw → error → M W bool.

(** The interface [ResultFailureHandler]. *)
Record ResultFailureHandler (S W Mw : Type) : Type := mkHandler {
  selectStep : context Mw → error → M W (option (Step S W Mw))
}.
Arguments mkHandler {S W Mw} _.
Arguments selectStep {S W Mw} _ _ _.

(** The two implementations of the interface [FailureBranch]. *)
Inductive FailureBranch (S W Mw : Type) : Type :=
| NewBranch (selector : FailureSelector W Mw) (step : Step S W Mw)
| DefaultBranch (step : Step S W Mw).
Arguments NewBranch {S W Mw} _ _.
Arguments DefaultBranch {S W Mw} _.

Section Engine.

Context {S W Mw : Type} `{!StateType S} `{!middleware S W Mw}.

Local Abbreviation step := (Step S W Mw).
Local Abbreviation stepBody := (context Mw → S → M W (option error)).

Definition genericName (struct : string) : string :=
  stepTypeName (S_name (S:=S)) struct.

(** [StepFunc] and [NewStep]. *)
Definition NewStep (f : func stepBody) : step :=
  mkStep (call f) (func_name f) false.

Definition stepInfo (s : step) : Info := mkInfo (StepName s) (canSkip s).

(** [MiddlewareChain.apply]: [for i := len(mwc) - 1; i >= 0; i--].  The
    counter [n] is [i + 1]. *)
Fixpoint apply_from (mwc : list Mw) (n : nat) (next : step) (info : Info) : step :=
  match n with
  | O => next
  | Datatypes.S i =>
      match mwc !! i with
      | Some mw => apply_from mwc i (middleware_apply mw next info) info
      | None => apply_from mwc i next info
      end
  end.

Definition MiddlewareChain_apply (mwc : list Mw) (next : step) (info : Info) : step :=
  apply_from mwc (length mwc) next info.

Definition Wrap (mwc : list Mw) (s : step) : step :=
  MiddlewareChain_apply mwc s (stepInfo s).

(** [Executor.Use]: append one by one. *)
Definition Use (e : Executor step Mw) (mwf : list Mw) : Executor step Mw :=
  mkExecutor (start e) (fold_left (fun chain m => chain ++ [m]) mwf (middlewares e)).

Definition execWithContext (ctx : context Mw) (stp : step) (state : S)
    : M W (option error) :=
  let s :=
    match Value ctx middlewareKey with
    | Some (chainValue c) => MiddlewareChain_apply c stp (stepInfo stp)
    | _ => stp
    end in
  Exec s ctx state.

Definition Executor_Exec (e : Executor step Mw) (ctx : context Mw) (state : S)
    : M W (option error) :=
  let s := MiddlewareChain_apply (middlewares e) (start e) (stepInfo (start e)) in
  Exec s (withMiddlewares ctx (middlewares e)) state.

(** [ifStep], [If], [IfNot]. *)
Definition ifStep_Exec (condition : Selector S W) (thenStep : step) : stepBody :=
  fun ctx state =>
    do b <- condition state;
    if b then execWithContext ctx thenStep state else ret None.

Definition If (condition : Selector S W) (thenStep : step) : step :=
  mkStep (ifStep_Exec condition thenStep) (genericName "ifStep") true.

Definition IfNot (condition : Selector S W) (thenStep : step) : step :=
  If (fun state => do b <- condition state; ret (negb b)) thenStep.

(** [ifElseStep], [IfElse]. *)
Definition ifElseStep_Exec (condition : Selector S W) (thenStep elseStep : step)
    : stepBody :=
  fun ctx state =>
    do b <- condition state;
    if b then execWithContext ctx thenStep state
    else execWithContext ctx elseStep state.

Definition IfElse (condition : Selector S W) (thenStep elseStep : step) : step :=
  mkStep (ifElseStep_Exec condition thenStep elseStep) (genericName "ifElseStep") true.

(** [seriesStep], [Series]. *)
Fixpoint seriesStep_Exec (steps : list step) (ctx : context Mw) (state : S)
    : M W (option error) :=
  match steps with
  | [] => ret None
  | stp :: rest =>
      do err <- execWithContext ctx stp state;
      match err with
      | Some e => ret (Some e)
      | None => seriesStep_Exec rest ctx state
      end
  end.

Definition Series (steps : list step) : step :=
  mkStep (seriesStep_Exec steps) (genericName "seriesStep") true.

(** [continueStep], [Continue]: the loop, with the accumulated [err]. *)
Fixpoint continueStep_loop (steps : list step) (ctx : context Mw) (state : S)
    (err : option error) : M W (option error) :=
  match steps with
  | [] => ret err
  | stp :: rest =>
      do stepErr <- execWithContext ctx stp state;
      match stepErr with
      | Some e =>
          continueStep_loop rest ctx state
            (errors_Join [err; Some (errorf_executing (StepName stp) e)])
      | None => continueStep_loop rest ctx state err
      end
  end.

Definition continueStep_Exec (steps : list step) : stepBody :=
  fun ctx state => continueStep_loop steps ctx state None.

Definition Continue (steps : list step) : step :=
  mkStep (continueStep_Exec steps) (genericName "continueStep") true.

(** [stepWithErr], [NewResultErrStep]. *)
Definition stepWithErr_exec (f : context Mw → S → option error → M W (option error))
    : stepBody :=
  fun ctx state => f ctx state (resultErrFromContext ctx).

Definition stepWithErr_Exec (f : context Mw → S → option error → M W (option error))
    : stepBody :=
  fun ctx state =>
    let s := NewStep (mkFunc (exec_fm_name (S:=S)) (stepWithErr_exec f)) in
    let s :=
      match Value ctx middlewareKey with
      | Some (chainValue c) =>
          let si := stepInfo s in
          let si := mkInfo (Name si) true in
          MiddlewareChain_apply c s si
      | _ => s
      end in
    Exec s ctx state.

Definition NewResultErrStep (f : context Mw → S → option error → M W (option error))
    : step :=
  mkStep (stepWithErr_Exec f) (genericName "stepWithErr") false.

(** The implementations of [selectStep]. *)
Definition StepFunc_selectStep (f : func stepBody) : ResultFailureHandler S W Mw :=
  mkHandler (fun _ _ => ret (Some (NewStep f))).

Definition failureBranch_selectStep (selector : FailureSelector W Mw) (stp : step)
    : ResultFailureHandler S W Mw :=
  mkHandler (fun ctx err =>
    do b <- selector ctx err;
    if b then ret (Some stp) else ret None).

Definition defaultBranch_selectStep (stp : step) : ResultFailureHandler S W Mw :=
  mkHandler (fun _ _ => ret (Some stp)).

Fixpoint multiFailureHandler_loop (branches : list (ResultFailureHandler S W Mw))
    (ctx : context Mw) (err : error) : M W (option step) :=
  match branches with
  | [] => ret None
  | branch :: rest =>
      do r <- selectStep branch ctx err;
      match r with
      | Some stp => ret (Some stp)
      | None => multiFailureHandler_loop rest ctx err
      end
  end.

Definition multiFailureHandler (branches : list (ResultFailureHandler S W Mw))
    : ResultFailureHandler S W Mw :=
  mkHandler (multiFailureHandler_loop branches).

Definition HandleMultiFailure (branches : list (FailureBranch S W Mw))
    : ResultFailureHandler S W Mw :=
  multiFailureHandler
    (map (fun branch =>
            match branch with
            | NewBranch selector stp => failureBranch_selectStep selector stp
            | DefaultBranch stp => defaultBranch_selectStep stp
            end) branches).

(** [resultStep], [Result]. *)
Definition handleErr (failureHandler : option (ResultFailureHandler S W Mw))
    (ctx : context Mw) (state : S) (err : error) : M W (option error) :=
  match failureHandler with
  | None => ret (Some err)
  | Some fh =>
      do r <- selectStep fh ctx err;
      match r with
      | Some stp => execWithContext (resultErrToContext ctx err) stp state
      | None => ret (Some err)
      end
  end.

Definition resultStep_Exec (mainStep successStep : step)
    (failureHandler : option (ResultFailureHandler S W Mw)) : stepBody :=
  fun ctx state =>
    do r <- execWithContext ctx mainStep state;
    match r with
    | Some err => handleErr failureHandler ctx state err
    | None => execWithContext ctx successStep state
    end.

Definition Result (mainStep successStep : step)
    (failureHandler : option (ResultFailureHandler S W Mw)) : step :=
  mkStep (resultStep_Exec mainStep successStep failureHandler)
    (genericName "resultStep") true.

End Engine.


(** ** Reference runs, used to state what the loops do *)

Section Runs.

Context {S W Mw : Type} `{!StateType S} `{!middleware S W Mw}.

(** Run every step once, in order, whatever each returns, and collect what
    each returned. *)
Fixpoint run_each (steps : list (Step S W Mw)) (ctx : context Mw) (state : S)
    : M W (list (option error)) :=
  match steps with
  | [] => ret []
  | stp :: rest =>
      do r <- execWithContext ctx stp state;
      do rs <- run_each rest ctx state;
      ret (r :: rs)
  end.

(** The failures among the outcomes [rs] of [steps], each wrapped with the
    display identifier of its step, in the order of the steps. *)
Fixpoint failures (steps : list (Step S W Mw)) (rs : list (option error))
    : list error :=
  match steps, rs with
  | stp :: steps', Some e :: rs' =>
      errorf_executing (StepName stp) e :: failures steps' rs'
  | _ :: steps', None :: rs' => failures steps' rs'
  | _, _ => []
  end.

Definition leaves_of (err : option error) : list error :=
  match err with
  | None => []
  | Some e => join_leaves e
  end.

(** The chain a context carries, if any. *)
Definition chain_of (ctx : context Mw) : list Mw :=
  match Value ctx middlewareKey with
  | Some (chainValue c) => c
  | _ => []
  end.

End Runs.

(** ** Interceptors

    The middlewares of the package's tests ([testLogMiddleware] and the
    closures given to [Use] in dag_test.go) all have one shape: do something
    with [info] and the state, call [next.Exec] once with the context
    received, and finish after it returns.  [interceptor] is that shape;
    [before] yields the state handed to [next]. *)
Record interceptor (S W : Type) : Type := mkInterceptor {
  mw_name : string;
  before : Info → S → M W S;
  after : Info → S → option error → M W (option error)
}.
Arguments mkInterceptor {S W} _ _ _.
Arguments mw_name {S W} _.
Arguments before {S W} _ _ _.
Arguments after {S W} _ _ _ _.

Global Instance interceptor_middleware {S W : Type}
    : middleware S W (interceptor S W) :=
  fun mw next info =>
    mkStep
      (fun ctx state =>
         do state' <- before mw info state;
         do r <- Exec next ctx state';
         after mw info state r)
      (mw_name mw) false.

(** What a chain of interceptors does around the work [k]. *)
Fixpoint around {S W : Type} (chain : list (interceptor S W)) (info : Info)
    (k : S → M W (option error)) (state : S) : M W (option error) :=
  match chain with
  | [] => k state
  | mw :: rest =>
      do state' <- before mw info state;
      do r <- around rest info k state';
      after mw info state r
  end.

(** ** Step trees

    A step value is opaque: its [Exec] can be called, but the steps it was
    built from cannot be asked back.  To speak of every place in which an
    error-aware step can stand, the constructors of the package are
    collected in a syntax; [build] gives the step a tree stands for.  The
    middlewares are interceptors.  [IfNot] is [PIf] with the negated
    predicate, as in the package. *)
Inductive plan (S W : Type) : Type :=
| PStep (f : func (context (interceptor S W) → S → M W (option error)))
| PErrStep (f : context (interceptor S W) → S → option error → M W (option error))
| PIf (condition : Selector S W) (thenStep : plan S W)
| PIfElse (condition : Selector S W) (thenStep elseStep : plan S W)
| PSeries (steps : plans S W)
| PContinue (steps : plans S W)
| PResult (mainStep successStep : plan S W) (failureHandler : handler S W)
with plans (S W : Type) : Type :=
| pnil
| pcons (p : plan S W) (rest : plans S W)
with handler (S W : Type) : Type :=
| NoHandler
| StepFuncHandler (f : func (context (interceptor S W) → S → M W (option error)))
| MultiFailure (branches : branches S W)
with branches (S W : Type) : Type :=
| bnil
| bBranch (selector : FailureSelector W (interceptor S W)) (p : plan S W)
    (rest : branches S W)
| bDefault (p : plan S W) (rest : branches S W).
Arguments PStep {S W} _.
Arguments PErrStep {S W} _.
Arguments PIf {S W} _ _.
Arguments PIfElse {S W} _ _ _.
Arguments PSeries {S W} _.
Arguments PContinue {S W} _.
Arguments PResult {S W} _ _ _.
Arguments pnil {S W}.
Arguments pcons {S W} _ _.
Arguments NoHandler {S W}.
Arguments StepFuncHandler {S W} _.
Arguments MultiFailure {S W} _.
Arguments bnil {S W}.
Arguments bBranch {S W} _ _ _.
Arguments bDefault {S W} _ _.

Scheme plan_mut := Induction for plan Sort Prop
with plans_mut := Induction for plans Sort Prop
with handler_mut := Induction for handler Sort Prop
with branches_mut := Induction for branches Sort Prop.
Combined Scheme plan_mutind from plan_mut, plans_mut, handler_mut, branches_mut.

Section Plans.

Context {S W : Type} `{!StateType S}.

Local Abbreviation Mw := (interceptor S W).

Fixpoint build (p : plan S W) : Step S W Mw :=
  match p with
  | PStep f => NewStep f
  | PErrStep f => NewResultErrStep f
  | PIf condition thenStep => If condition (build thenStep)
  | PIfElse condition thenStep elseStep =>
      IfElse condition (build thenStep) (build elseStep)
  | PSeries steps => Series (build_all steps)
  | PContinue steps => Continue (build_all steps)
  | PResult mainStep successStep failureHandler =>
      Result (build mainStep) (build successStep) (build_handler failureHandler)
  end
with build_all (ps : plans S W) : list (Step S W Mw) :=
  match ps with
  | pnil => []
  | pcons p rest => build p :: build_all rest
  end
with build_handler (h : handler S W) : option (ResultFailureHandler S W Mw) :=
  match h with
  | NoHandler => None
  | StepFuncHandler f => Some (StepFunc_selectStep f)
  | MultiFailure bs => Some (HandleMultiFailure (build_branches bs))
  end
with build_branches (bs : branches S W) : list (FailureBranch S W Mw) :=
  match bs with
  | bnil => []
  | bBranch selector p rest => NewBranch selector (build p) :: build_branches rest
  | bDefault p rest => DefaultBranch (build p) :: build_branches rest
  end.

(** The run of a step tree in which the error that error-aware steps are
    given is an argument of its own, [resErr], instead of a value looked up
    in the context.  It follows the rule "the error of the innermost
    failure path": where a [Result] runs the step its handler selected,
    [resErr] becomes the error of that [Result]'s main step, whatever it
    was before; everywhere else (the child of a conditional, the children
    of [Series] and [Continue], the main and the success step of a
    [Result]) it is handed on as it is; an error-aware step calls its
    function with it.  Apart from that the run is the one of the package:
    each child is run inside the chain of the context, under its own
    [Info]. *)
Fixpoint runNearest (p : plan S W) (ctx : context Mw) (resErr : option error)
    (state : S) {struct p} : M W (option error) :=
  match p with
  | PStep f => call f ctx state
  | PErrStep f =>
      around (chain_of ctx) (mkInfo (exec_fm_name (S:=S)) true)
        (fun st => f ctx st resErr) state
  | PIf condition thenStep =>
      do b <- condition state;
      if b then
        around (chain_of ctx) (stepInfo (build thenStep))
          (runNearest thenStep ctx resErr) state
      else ret None
  | PIfElse condition thenStep elseStep =>
      do b <- condition state;
      if b then
        around (chain_of ctx) (stepInfo (build thenStep))
          (runNearest thenStep ctx resErr) state
      else
        around (chain_of ctx) (stepInfo (build elseStep))
          (runNearest elseStep ctx resErr) state
  | PSeries steps => runNearest_series steps ctx resErr state
  | PContinue steps => runNearest_continue steps ctx resErr state None
  | PResult mainStep successStep failureHandler =>
      do r <- around (chain_of ctx) (stepInfo (build mainStep))
                (runNearest mainStep ctx resErr) state;
      match r with
      | Some err => runNearest_handler failureHandler ctx state err
      | None =>
          around (chain_of ctx) (stepInfo (build successStep))
            (runNearest successStep ctx resErr) state
      end
  end
with runNearest_series (ps : plans S W) (ctx : context Mw) (resErr : option error)
    (state : S) {struct ps} : M W (option error) :=
  match ps with
  | pnil => ret None
  | pcons p rest =>
      do r <- around (chain_of ctx) (stepInfo (build p)) (runNearest p ctx resErr) state;
      match r with
      | Some e => ret (Some e)
      | None => runNearest_series rest ctx resErr state
      end
  end
with runNearest_continue (ps : plans S W) (ctx : context Mw) (resErr : option error)
    (state : S) (acc : option error) {struct ps} : M W (option error) :=
  match ps with
  | pnil => ret acc
  | pcons p rest =>
      do r <- around (chain_of ctx) (stepInfo (build p)) (runNearest p ctx resErr) state;
      match r with
      | Some e =>
          runNearest_continue rest ctx resErr state
            (errors_Join [acc; Some (errorf_executing (StepName (build p)) e)])
      | None => runNearest_continue rest ctx resErr state acc
      end
  end
with runNearest_handler (h : handler S W) (ctx : context Mw) (state : S) (err : error)
    {struct h} : M W (option error) :=
  match h with
  | NoHandler => ret (Some err)
  | StepFuncHandler f =>
      around (chain_of ctx) (stepInfo (NewStep f))
        (call f (resultErrToContext ctx err)) state
  | MultiFailure bs => runNearest_branches bs ctx state err
  end
with runNearest_branches (bs : branches S W) (ctx : context Mw) (state : S) (err : error)
    {struct bs} : M W (option error) :=
  match bs with
  | bnil => ret (Some err)
  | bBranch selector p rest =>
      do b <- selector ctx err;
      if b then
        around (chain_of ctx) (stepInfo (build p))
          (runNearest p (resultErrToContext ctx err) (Some err)) state
      else runNearest_branches rest ctx state err
  | bDefault p _ =>
      around (chain_of ctx) (stepInfo (build p))
        (runNearest p (resultErrToContext ctx err) (Some err)) state
  end.

End Plans.

(** ** A test bench: the state type of the tests and a buffer as world *)

Inductive testState : Type := mkTestState.

Global Instance testState_type : StateType testState :=
  {| S_name := "testState"; exec_fm_name := "dagger:stepWithErr[...].Exec.func1" |}.

Abbreviation buffer := (list string).

(** [testLogMiddleware(w, prefix)], writing the display identifier in full
    (the helper of the tests leaves the package out). *)
Definition testLogMiddleware (prefix : string) : interceptor testState buffer :=
  mkInterceptor "dagger:testLogMiddleware.func1"
    (fun info state w => (state, w ++ [prefix +:+ ": Starting step " +:+ Name info]))
    (fun info _ r w => (r, w ++ [prefix +:+ ": " +:+ Name info +:+ " done"])).

Abbreviation testStep := (Step testState buffer (interceptor testState buffer)).

(** A step that appends its name to the buffer and returns [result]. *)
Definition appendStep (name : string) (result : option error) : testStep :=
  NewStep (mkFunc name (fun _ _ w => (result, w ++ [name]))).

(** An error-aware step that writes down the error it was given. *)
Definition observeStep : testStep :=
  NewResultErrStep (fun _ _ resErr w =>
    (None, w ++ [match resErr with Some e => "saw " +:+ Error e | None => "saw nil" end])).

Definition testErrStep : error := userError 1 "step error".
Definition notFoundStep : error := userError 2 "not found".

(** A failure selector that counts its calls in the buffer. *)
Definition selectIs (target : error) : FailureSelector buffer (interceptor testState buffer) :=
  fun _ err w => (errors_Is err target, w ++ ["selector " +:+ Error target]).

(** The steps of [TestContinue/Failure] and what each returns. *)
Definition continueSteps : list testStep :=
  [appendStep "s1" None; appendStep "s2" (Some testErrStep);
   appendStep "s3" None; appendStep "s4" (Some notFoundStep)].

Definition continueOutcomes : list (option error) :=
  [None; Some testErrStep; None; Some notFoundStep].

(** Handlers in the manner of [TestResult/FailureMultipleBranch]. *)
Definition failureStep : testStep := appendStep "failure" (Some notFoundStep).

Definition noMatchHandler : ResultFailureHandler testState buffer (interceptor testState buffer) :=
  HandleMultiFailure [NewBranch (selectIs notFoundStep) failureStep].

Definition matchingHandler : ResultFailureHandler testState buffer (interceptor testState buffer) :=
  HandleMultiFailure [NewBranch (selectIs testErrStep) failureStep].

Definition observingHandler : ResultFailureHandler testState buffer (interceptor testState buffer) :=
  HandleMultiFailure [NewBranch (selectIs testErrStep) observeStep].

(** A [Result] used as the failure step of another [Result]. *)
Definition innerResult : testStep :=
  Result (appendStep "inner" (Some testErrStep)) (appendStep "success" None)
    (Some (HandleMultiFailure [DefaultBranch observeStep])).

Definition logChain : list (interceptor testState buffer) :=
  [testLogMiddleware "L1"; testLogMiddleware "L2"].

(** The state type of [TestExecutor_Use] and [TestStepWithErr_Exec].  (It
    is local to a test function there, and reflection adds a counter to its
    name.) *)
Record useState : Type := mkUseState { indent : nat }.

Global Instance useState_type : StateType useState :=
  {| S_name := "useState"; exec_fm_name := "dagger:stepWithErr[...].Exec.func1" |}.

Abbreviation useStep := (Step useState buffer (interceptor useState buffer)).

Definition tab : string := String (Ascii.ascii_of_nat 9) EmptyString.

(** [strings.Repeat] of a tab. *)
Fixpoint tabs (count : nat) : string :=
  match count with
  | O => ""
  | Datatypes.S n => tab +:+ tabs n
  end.

(** The middleware of [TestExecutor_Use/Single]: write the name at the
    current indent and call [next] one level deeper. *)
Definition indentMiddleware : interceptor useState buffer :=
  mkInterceptor "dagger:TestExecutor_Use.func4.1"
    (fun info state w =>
       (mkUseState (indent state + 1), w ++ [tabs (indent state) +:+ Name info]))
    (fun _ _ r => ret r).

(** The middleware of [TestExecutor_Use/SkipMetaSteps] and of
    [TestStepWithErr_Exec]: the same, silent for steps that can be
    skipped.  (Go would panic on [indent - 1] at indent 0; the runs below
    never write at indent 0.) *)
Definition skipMetaMiddleware : interceptor useState buffer :=
  mkInterceptor "dagger:TestExecutor_Use.func5.1"
    (fun info state w =>
       (mkUseState (indent state + 1),
        if CanSkip info then w else w ++ [tabs (indent state - 1) +:+ Name info]))
    (fun _ _ r => ret r).

(** A step of the executor tests: it does nothing and returns [result]. *)
Definition namedStep (name : string) (result : option error) : useStep :=
  NewStep (mkFunc name (fun _ _ => ret result)).

Definition randomErr : error := userError 3 "random".

(** ** Example graphs *)

(** [x := If(c, NewStep(work)); Series(x, x)]: one [ifStep] used twice. *)
Definition diamond_if : gmap addr node :=
  {[ 1%positive := NSeries [2%positive; 2%positive];
     2%positive := NIf 3%positive;
     3%positive := NStepFunc "main:work" ]}.

(** [Series(a, b)] where [a] is a [seriesStep] and [b] a [continueStep],
    each made its own child. *)
Definition two_loops : gmap addr node :=
  {[ 1%positive := NSeries [2%positive; 3%positive];
     2%positive := NSeries [2%positive];
     3%positive := NContinue [3%positive] ]}.

(** [Series(a, b)] without sharing and without cycle. *)
Definition plain_series : gmap addr node :=
  {[ 1%positive := NSeries [2%positive; 3%positive];
     2%positive := NStepFunc "main:a";
     3%positive := NStepFunc "main:b" ]}.

(** A [Result] whose default failure branch is the [Result] itself. *)
Definition handler_loop : gmap addr node :=
  {[ 1%positive := NResult 2%positive 3%positive (Some (hDefaultBranch 1%positive));
     2%positive := NStepFunc "main:create";
     3%positive := NStepFunc "main:report" ]}.

(** The same, with one [ifStep] as both main and success step. *)
Definition handler_loop_shared_if : gmap addr node :=
  {[ 1%positive := NResult 2%positive 2%positive (Some (hDefaultBranch 1%positive));
     2%positive := NIf 3%positive;
     3%positive := NStepFunc "main:work" ]}.

(** [Series(x, x, c)]: the shared [ifStep] of [diamond_if], then a
    [continueStep] that is its own child. *)
Definition shared_if_then_loop : gmap addr node :=
  {[ 1%positive := NSeries [2%positive; 2%positive; 4%positive];
     2%positive := NIf 3%positive;
     3%positive := NStepFunc "main:work";
     4%positive := NContinue [4%positive] ]}.

(** A [Result] step without its failure handler. *)
Definition dropHandler (n : node) : node :=
  match n with
  | NResult mainStep successStep _ => NResult mainStep successStep None
  | _ => n
  end.

(** No [ifStep] (the only step type with a single-step [Unwrap]) can be
    reached from [a]. *)
Definition if_free_from (h : gmap addr node) (a : addr) : Prop :=
  ∀ b n, rtc (edge h) a b → h !! b = Some n →
    match Unwrap n with UnwrapOne _ => False | _ => True end.

(** ** Display names (namer.go)

    The parts of the naming code that work on strings.  What reflection and
    the runtime symbol table supply ([stepFuncName], [stepTypeName]) stays
    outside: [StepName] is a field of [Step]. *)

Module namer.

(** [strings.LastIndex]: the index of the last occurrence of [substr] in
    [s], or -1. *)
Fixpoint LastIndex (s substr : string) : Z :=
  match s with
  | EmptyString => if String.prefix substr EmptyString then 0%Z else (-1)%Z
  | String _ s' =>
      let i := LastIndex s' substr in
      if (0 <=? i)%Z then (i + 1)%Z
      else if String.prefix substr s then 0%Z else (-1)%Z
  end.

(** The slices [s[:i]] and [s[i:]]. *)
Definition slice_to (s : string) (i : Z) : string := String.substring 0 (Z.to_nat i) s.

Definition slice_from (s : string) (i : Z) : string :=
  String.substring (Z.to_nat i) (String.length s - Z.to_nat i) s.

(** [ScopedName] is [[2]string]: package path and name. *)
Definition ScopedName : Type := string * string.

Definition PackagePath (s : ScopedName) : string := s.1.

Definition Name (s : ScopedName) : string := s.2.

Definition Module (s : ScopedName) : string :=
  let pp := PackagePath s in
  let lastIndex := LastIndex pp "/" in
  if decide (lastIndex = (-1)%Z) then "" else slice_to pp lastIndex.

Definition Package (s : ScopedName) : string :=
  let pp := PackagePath s in
  let lastIndex := LastIndex pp "/" in
  if decide (lastIndex = (-1)%Z) then pp else slice_from pp (lastIndex + 1).

Definition ScopedName_String (s : ScopedName) : string :=
  let pkg := Package s in
  if decide (pkg = "") then Name s else pkg +:+ ":" +:+ Name s.

(** [GenericScopedName] is [[2]ScopedName]: the step type and its type
    argument. *)
Definition GenericScopedName : Type := ScopedName * ScopedName.

Definition StepScopedName (s : GenericScopedName) : ScopedName := s.1.

Definition TypeScopedName (s : GenericScopedName) : ScopedName := s.2.

Definition GenericScopedName_String (s : GenericScopedName) : string :=
  ScopedName_String s.1 +:+ "[" +:+ Name s.2 +:+ "]".

Definition fmtPkgPath (modl pkg : string) : string :=
  if decide (modl = "" ∧ pkg = "") then ""
  else if decide (modl = "") then pkg
  else modl +:+ "/" +:+ pkg.

End namer.

(** ** More reference runs *)

Section MoreRuns.

Context {S W Mw : Type}.

(** The selection the doc comment of [HandleMultiFailure] describes: the
    step of the first branch whose selector holds, calling the selectors
    in order up to that one. *)
Fixpoint first_eligible (branches : list (FailureSelector W Mw * Step S W Mw))
    (ctx : context Mw) (err : error) : M W (option (Step S W Mw)) :=
  match branches with
  | [] => ret None
  | (selector, stp) :: rest =>
      do b <- selector ctx err;
      if b then ret (Some stp) else first_eligible rest ctx err
  end.

Definition toBranch (b : FailureSelector W Mw * Step S W Mw) : FailureBranch S W Mw :=
  NewBranch b.1 b.2.

(** A predicate that only reads the state. *)
Definition pure_selector (condition : Selector S W) : Prop :=
  ∃ p : S → bool, ∀ state w, condition state w = (p state, w).

End MoreRuns.

(** No step of the store is an [ifStep]. *)
Definition single_unwrap (n : node) : bool :=
  match Unwrap n with UnwrapOne _ => true | _ => false end.

Definition if_free_store (h : gmap addr node) : Prop :=
  map_Forall (λ _ n, single_unwrap n = false) h.

(** [handler_loop] with another failure handler. *)
Definition handler_loop_multi : gmap addr node :=
  {[ 1%positive := NResult 2%positive 3%positive
                     (Some (hMulti [hFailureBranch 2%positive; hDefaultBranch 1%positive]));
     2%positive := NStepFunc "main:create";
     3%positive := NStepFunc "main:report" ]}.

(** A pure predicate and steps for the conditional laws. *)
Definition isIndented : Selector useState buffer :=
  fun state w => (bool_decide (0 < indent state), w).

(** A predicate that leaves a mark in the buffer when it is called. *)
Definition markedCondition (b : bool) : Selector testState buffer :=
  fun _ w => (b, w ++ ["condition"]).

(** The steps of the test bench as trees. *)
Definition appendPlan (name : string) (result : option error) : plan testState buffer :=
  PStep (mkFunc name (fun _ _ w => (result, w ++ [name]))).

Definition observePlan : plan testState buffer :=
  PErrStep (fun _ _ resErr w =>
    (None, w ++ [match resErr with Some e => "saw " +:+ Error e | None => "saw nil" end])).

(** A [Result] whose main step returns nil and whose success step is the
    error-aware step; it is used as the failure step of another [Result]. *)
Definition innerSuccessResult : testStep :=
  Result (appendStep "inner" None) observeStep
    (Some (HandleMultiFailure [DefaultBranch (appendStep "innerFailure" None)])).

(** A tree with the error-aware step in six places: before a [Result];
    at the start of its failure step; as the step selected by the handler
    of a [Result] inside that failure step; as the success step of a second
    [Result] there; after both; and after the outer [Result]. *)
Definition observingPlan : plan testState buffer :=
  PSeries
    (pcons observePlan
    (pcons (PContinue
      (pcons (PResult (appendPlan "outer" (Some notFoundStep)) (appendPlan "success" None)
                (MultiFailure (bDefault
                   (PSeries
                      (pcons observePlan
                      (pcons (PResult (appendPlan "inner" (Some testErrStep))
                                (appendPlan "success" None)
                                (MultiFailure
                                   (bBranch (selectIs testErrStep) observePlan bnil)))
                      (pcons (PResult (appendPlan "second" None) observePlan NoHandler)
                      (pcons observePlan pnil)))))
                   bnil)))
      pnil))
    (pcons observePlan pnil))).

(** Checks on a concrete store, by computation. *)
Ltac store_check := refine (bool_decide_unpack _ _); by vm_compute.
Ltac store_edge := eexists; split; [reflexivity | simpl; set_solver].

(** * Properties *)

Section ValidationFacts.

Variable S_name : string.
Variable Mw : Type.

Local Abbreviation heap := (gmap addr node).
Local Abbreviation check := (checkDAGRecursive S_name).

Implicit Types (h : heap) (V : gset addr) (a b s : addr).

Lemma tc_first_step {A} (R : relation A) x y :
  tc R x y → ∃ c, R x c ∧ rtc R c y.
Proof. destruct 1; eauto using rtc_refl, tc_rtc. Qed.

Lemma edge_child h a n c :
  h !! a = Some n → c ∈ unwrap_list n → edge h a c.
Proof. intros Ha Hc. exists n. done. Qed.

(** A call that returns nil was made on a step that was not in [visited],
    and leaves nothing out of [visited] that was in it. *)
Lemma checkChildren_Passed (rec : addr → gset addr → checked) cs :
  (∀ c V V', c ∈ cs → rec c V = Passed V' → V ⊆ V') →
  ∀ V V', checkChildren rec cs V = Passed V' →
    V ⊆ V' ∧ ∀ c, c ∈ cs → ∃ Vc Vc', V ⊆ Vc ∧ rec c Vc = Passed Vc'.
Proof.
  induction cs as [|c cs IH]; intros Hrec V V' H; simpl in H.
  - injection H as <-. split; [done|]. intros c Hc. by apply elem_of_nil in Hc.
  - destruct (rec c V) as [V1| | |] eqn:E; try discriminate.
    assert (V ⊆ V1) as HV1 by (eapply Hrec; [left|done]).
    assert (∀ c0 Va Vb, c0 ∈ cs → rec c0 Va = Passed Vb → Va ⊆ Vb) as Hrec'
      by (intros c0 Va Vb Hc0; apply Hrec; by right).
    destruct (IH Hrec' _ _ H) as [Hsub Hall].
    split; [set_solver|].
    intros c0 Hc0. apply elem_of_cons in Hc0 as [->|Hc0].
    + exists V, V1. done.
    + destruct (Hall c0 Hc0) as (Vc & Vc' & ? & ?). exists Vc, Vc'. split; [set_solver|done].
Qed.

Lemma check_Passed fuel h s V V' :
  check fuel h s V = Passed V' → (s ∉ V) ∧ V ⊆ V' ∧ is_Some (h !! s).
Proof.
  revert s V V'. induction fuel as [|fuel IH]; intros s V V' H; simpl in H; [done|].
  destruct (h !! s) as [n|] eqn:Hs; [|done].
  destruct (decide (s ∈ V)) as [|Hni]; [done|].
  split; [done|]. split; [|by eexists].
  destruct (Unwrap n) as [|c|cs].
  - injection H as <-. set_solver.
  - apply IH in H as (_ & ? & _). set_solver.
  - destruct (checkChildren _ cs _) as [V1| | |] eqn:E; try discriminate.
    injection H as <-.
    apply checkChildren_Passed in E as [? _]; [set_solver|].
    intros c Va Vb _ Hc. by apply IH in Hc as (_ & ? & _).
Qed.

(** After a call that returned nil, every child was itself checked, with
    the parent in [visited], and returned nil. *)
Lemma check_Passed_child fuel h s V V' c :
  check fuel h s V = Passed V' → edge h s c →
  ∃ fuel' Vc Vc', {[s]} ∪ V ⊆ Vc ∧ check fuel' h c Vc = Passed Vc'.
Proof.
  destruct fuel as [|fuel]; simpl; [done|].
  intros H (n & Hs & Hc). rewrite Hs in H.
  destruct (decide (s ∈ V)); [done|].
  unfold unwrap_list in Hc. destruct (Unwrap n) as [|c0|cs].
  - by apply elem_of_nil in Hc.
  - apply list_elem_of_singleton in Hc as ->. by exists fuel, ({[s]} ∪ V), V'.
  - destruct (checkChildren _ cs _) as [V1| | |] eqn:E; try discriminate.
    apply checkChildren_Passed in E as [_ Hall].
    + destruct (Hall c Hc) as (Vc & Vc' & ? & ?). by exists fuel, Vc, Vc'.
    + intros c0 Va Vb _ Hc0. by apply check_Passed in Hc0 as (_ & ? & _).
Qed.

Lemma check_Passed_reach fuel h s V V' t :
  check fuel h s V = Passed V' → rtc (edge h) s t →
  ∃ fuel' Vt Vt', V ⊆ Vt ∧ check fuel' h t Vt = Passed Vt'.
Proof.
  intros H Hr. revert fuel V V' H.
  induction Hr as [s|s c t Hsc _ IH]; intros fuel V V' H.
  - by exists fuel, V, V'.
  - destruct (check_Passed_child _ _ _ _ _ _ H Hsc) as (f1 & Vc & Vc' & Hsub & Hc).
    destruct (IH _ _ _ Hc) as (f2 & Vt & Vt' & ? & ?).
    exists f2, Vt, Vt'. split; [set_solver|done].
Qed.

(** Completeness of the traversal: where it returns nil, no step that can
    be reached is on a cycle. *)
Lemma check_Passed_acyclic fuel h s V V' t :
  check fuel h s V = Passed V' → rtc (edge h) s t → ¬ tc (edge h) t t.
Proof.
  intros H Hr Hcyc.
  destruct (check_Passed_reach _ _ _ _ _ _ H Hr) as (f1 & Vt & Vt' & _ & Ht).
  destruct (tc_first_step _ _ _ Hcyc) as (c & Hstep & Hrest).
  destruct (check_Passed_child _ _ _ _ _ _ Ht Hstep) as (f2 & Vc & Vc' & Hsub & Hc).
  destruct (check_Passed_reach _ _ _ _ _ _ Hc Hrest) as (f3 & Vu & Vu' & Hsub' & Hu).
  apply check_Passed in Hu as (Hni & _). set_solver.
Qed.


(** The loop keeps any property of [visited] that each passing child
    keeps, and a result other than nil is the result of one child. *)
Lemma checkChildren_inv (rec : addr → gset addr → checked) cs (I : gset addr → Prop) :
  (∀ c Va Vb, c ∈ cs → I Va → rec c Va = Passed Vb → I Vb) →
  ∀ V V', I V → checkChildren rec cs V = Passed V' → I V'.
Proof.
  induction cs as [|c cs IH]; intros Hrec V V' HI H; simpl in H.
  - by injection H as <-.
  - destruct (rec c V) as [V1| | |] eqn:E; try discriminate.
    eapply (IH (λ c0 Va Vb Hc0, Hrec c0 Va Vb (list_elem_of_further _ _ _ Hc0))); [|done].
    eapply Hrec; [left|done..].
Qed.

Lemma checkChildren_stops (rec : addr → gset addr → checked) cs (I : gset addr → Prop) :
  (∀ c Va Vb, c ∈ cs → I Va → rec c Va = Passed Vb → I Vb) →
  ∀ V r, I V → checkChildren rec cs V = r → (∀ V', r ≠ Passed V') →
    ∃ c Vc, c ∈ cs ∧ I Vc ∧ rec c Vc = r.
Proof.
  induction cs as [|c cs IH]; intros Hrec V r HI H Hr; simpl in H.
  - by destruct (Hr V).
  - destruct (rec c V) as [V1| | |] eqn:E.
    + destruct (IH (λ c0 Va Vb Hc0, Hrec c0 Va Vb (list_elem_of_further _ _ _ Hc0))
                   V1 r) as (c0 & Vc & ? & ? & ?); [|done..|].
      * eapply Hrec; [left|done..].
      * exists c0, Vc. split; [by right|done].
    + exists c, V. subst r. split; [left|done].
    + exists c, V. subst r. split; [left|done].
    + exists c, V. subst r. split; [left|done].
Qed.

(** ** Termination: the fuel [checkDAGCycles] starts with is enough *)

Lemma size_unvisited h V s :
  is_Some (h !! s) → s ∉ V →
  size (dom h ∖ ({[s]} ∪ V)) < size (dom h ∖ V).
Proof.
  intros Hs Hni. apply subset_size. apply elem_of_dom in Hs. set_solver.
Qed.

Lemma checkDAGRecursive_fuel fuel h s V :
  size (dom h ∖ V) < fuel → check fuel h s V ≠ OutOfFuel.
Proof.
  revert s V. induction fuel as [|fuel IH]; intros s V Hlt; [lia|]. simpl.
  destruct (h !! s) as [n|] eqn:Hs; [|done].
  destruct (decide (s ∈ V)) as [|Hni]; [done|].
  assert (size (dom h ∖ ({[s]} ∪ V)) < fuel) as Hlt'.
  { pose proof (size_unvisited h V s (mk_is_Some _ _ Hs) Hni). lia. }
  destruct (Unwrap n) as [|c|cs]; [done|by apply IH|].
  destruct (checkChildren _ cs _) as [V1| | |] eqn:E; try done.
  apply (checkChildren_stops _ _ (λ X, size (dom h ∖ X) < fuel)) in E
    as (c & Vc & _ & HVc & Hc); [|..|done|done].
  - by apply IH in Hc.
  - intros c Va Vb _ HVa Hc. apply check_Passed in Hc as (_ & Hsub & _).
    assert (size (dom h ∖ Vb) ≤ size (dom h ∖ Va)); [|lia].
    apply subseteq_size. set_solver.
Qed.

Lemma checkDAGCycles_fuel h s : checkDAGCycles S_name h s ≠ OutOfFuel.
Proof.
  apply checkDAGRecursive_fuel.
  assert (size (dom h ∖ (∅ : gset addr)) ≤ size (dom h)) by (apply subseteq_size; set_solver).
  rewrite size_dom in *. lia.
Qed.

(** ** What the other results say about the graph *)

Lemma check_NilStep fuel h s V :
  check fuel h s V = NilStep → ∃ t, rtc (edge h) s t ∧ h !! t = None.
Proof.
  revert s V. induction fuel as [|fuel IH]; intros s V H; simpl in H; [done|].
  destruct (h !! s) as [n|] eqn:Hs; [|by exists s].
  destruct (decide (s ∈ V)); [done|].
  pose proof (edge_child h s n) as Hedge. unfold unwrap_list in Hedge.
  destruct (Unwrap n) as [|c|cs]; [done|..].
  - apply IH in H as (t & ? & ?). exists t. split; [|done].
    eapply rtc_l; [|done]. apply Hedge; [done|left].
  - destruct (checkChildren _ cs _) as [V1| | |] eqn:E; try done.
    apply (checkChildren_stops _ _ (λ _, True)) in E as (c & Vc & Hc & _ & Hrec); try done.
    apply IH in Hrec as (t & ? & ?). exists t. split; [|done].
    eapply rtc_l; [|done]. by apply Hedge.
Qed.

Lemma if_free_child h a c : if_free_from h a → edge h a c → if_free_from h c.
Proof. intros Hf He b n Hr. apply Hf. by eapply rtc_l. Qed.

(** Without [ifStep]s the map is handed back as it was received. *)
Lemma check_Passed_if_free fuel h s V V' :
  if_free_from h s → check fuel h s V = Passed V' → V' = V.
Proof.
  revert s V V'. induction fuel as [|fuel IH]; intros s V V' Hf H; simpl in H; [done|].
  destruct (h !! s) as [n|] eqn:Hs; [|done].
  destruct (decide (s ∈ V)) as [|Hni]; [done|].
  pose proof (Hf s n (rtc_refl _ _) Hs) as Hn.
  pose proof (edge_child h s n) as Hedge. unfold unwrap_list in Hedge.
  destruct (Unwrap n) as [|c|cs]; [|done|].
  - injection H as <-. set_solver.
  - destruct (checkChildren _ cs _) as [V1| | |] eqn:E; try done.
    injection H as <-.
    apply (checkChildren_inv _ _ (λ X, X = {[s]} ∪ V)) in E as ->; [set_solver| |done].
    intros c Va Vb Hc -> Hrec. eapply IH; [|done].
    eapply if_free_child; [done|]. by apply Hedge.
Qed.

(** An error is a cycle error naming a step that can be reached from the
    start.  Without [ifStep]s, [visited] is the active path: the step named
    was in the map the traversal started with or lies on a cycle. *)
Lemma check_Failed_named fuel h s V e :
  check fuel h s V = Failed e →
  ∃ m n, rtc (edge h) s m ∧ h !! m = Some n ∧ e = ErrCycle (nodeName S_name n) ∧
         (if_free_from h s → m ∈ V ∨ tc (edge h) m m).
Proof.
  revert s V. induction fuel as [|fuel IH]; intros s V H; simpl in H; [done|].
  destruct (h !! s) as [n|] eqn:Hs; [|done].
  destruct (decide (s ∈ V)).
  { injection H as <-. exists s, n. split; [done|]. split; [done|]. split; [done|]. by left. }
  pose proof (edge_child h s n) as Hedge. unfold unwrap_list in Hedge.
  destruct (Unwrap n) as [|c|cs] eqn:Hu; [done|..].
  - apply IH in H as (m & nm & Hr & ? & ? & _).
    exists m, nm. split; [eapply rtc_l; [apply Hedge; [done|left]|done]|].
    split; [done|]. split; [done|]. intros Hf.
    specialize (Hf s n (rtc_refl _ _) Hs). by rewrite Hu in Hf.
  - destruct (checkChildren _ cs _) as [V1| | |] eqn:E; try done.
    injection H as ->.
    apply (checkChildren_stops _ _ (λ X, if_free_from h s → X = {[s]} ∪ V)) in E
      as (c & Vc & Hc & HVc & Hrec); try done.
    + assert (edge h s c) as Hsc by (by apply Hedge).
      apply IH in Hrec as (m & nm & Hr & ? & ? & Hm).
      exists m, nm. split; [by eapply rtc_l|]. split; [done|]. split; [done|].
      intros Hf. rewrite (HVc Hf) in Hm.
      destruct Hm as [Hm|]; [by eapply if_free_child| |by right].
      apply elem_of_union in Hm as [->%elem_of_singleton|]; [|by left].
      right. eapply tc_rtc_r; [|done]. by apply tc_once.
    + intros c Va Vb Hc HVa Hrec Hf. rewrite <- (HVa Hf).
      eapply check_Passed_if_free; [|done].
      eapply if_free_child; [done|]. by apply Hedge.
Qed.

(** The traversal reads [Unwrap] only, so never a failure handler. *)
Lemma Unwrap_dropHandler n : Unwrap (dropHandler n) = Unwrap n.
Proof. by destruct n. Qed.

Lemma nodeName_dropHandler n : nodeName S_name (dropHandler n) = nodeName S_name n.
Proof. by destruct n. Qed.

Lemma checkChildren_ext (rec rec' : addr → gset addr → checked) cs V :
  (∀ c X, rec c X = rec' c X) → checkChildren rec cs V = checkChildren rec' cs V.
Proof.
  intros Hext. revert V. induction cs as [|c cs IH]; intros V; simpl; [done|].
  rewrite Hext. by destruct (rec' c V).
Qed.

Lemma check_dropHandler fuel h s V :
  check fuel (dropHandler <$> h) s V = check fuel h s V.
Proof.
  revert s V. induction fuel as [|fuel IH]; intros s V; simpl; [done|].
  rewrite lookup_fmap. destruct (h !! s) as [n|]; simpl; [|done].
  rewrite Unwrap_dropHandler, nodeName_dropHandler.
  destruct (decide (s ∈ V)); [done|].
  destruct (Unwrap n) as [|c|cs]; [done|apply IH|].
  by rewrite (checkChildren_ext _ (check fuel h)).
Qed.

Lemma New_dropHandler h root :
  New S_name Mw (dropHandler <$> h) root = New S_name Mw h root.
Proof.
  unfold New, checkDAGCycles. by rewrite map_size_fmap, check_dropHandler.
Qed.

(** A store whose steps can be ranked so that children rank lower has no
    cycle. *)
Lemma ranked_acyclic h (rank : addr → nat) :
  map_Forall (λ a n, Forall (λ b, rank b < rank a) (unwrap_list n)) h →
  ∀ t, ¬ tc (edge h) t t.
Proof.
  intros Hrank.
  assert (∀ a b, tc (edge h) a b → rank b < rank a) as Hlt.
  { induction 1 as [a b (n & Ha & Hb)|a b c (n & Ha & Hb) _ IH].
    - specialize (Hrank a n Ha). rewrite Forall_forall in Hrank. by apply Hrank.
    - specialize (Hrank a n Ha). rewrite Forall_forall in Hrank.
      specialize (Hrank b Hb). simpl in *. lia. }
  intros t Ht%Hlt. lia.
Qed.

(** The same when one step [c] is its own child: no other step is on a
    cycle. *)
Lemma ranked_single_loop h (rank : addr → nat) (c : addr) :
  map_Forall (λ a n, Forall (λ b, rank b < rank a ∨ (a = c ∧ b = c)) (unwrap_list n)) h →
  ∀ t, tc (edge h) t t → t = c.
Proof.
  intros Hrank.
  assert (∀ a b, tc (edge h) a b → rank b < rank a ∨ (a = c ∧ b = c)) as Hlt.
  { induction 1 as [a b (n & Ha & Hb)|a b d (n & Ha & Hb) _ IH].
    - specialize (Hrank a n Ha). rewrite Forall_forall in Hrank. by apply Hrank.
    - specialize (Hrank a n Ha). rewrite Forall_forall in Hrank.
      specialize (Hrank b Hb). simpl in *.
      destruct Hrank as [?|[Ea Eb]], IH as [?|[Eb' Ed]].
      + left. lia.
      + left. replace d with b by congruence. done.
      + left. replace a with b by congruence. done.
      + right. done. }
  intros t Ht. destruct (Hlt t t Ht) as [?|[? _]]; [lia|done].
Qed.

Lemma closed_store h root :
  is_Some (h !! root) →
  map_Forall (λ _ n, Forall (λ c, is_Some (h !! c)) (unwrap_list n)) h →
  closed_from h root.
Proof.
  intros Hroot Hall. unfold closed_from.
  refine (rtc_ind_r (λ b, is_Some (h !! b)) root Hroot _).
  intros a b _ (n & Ha & Hb) _.
  specialize (Hall a n Ha). rewrite Forall_forall in Hall. by apply Hall.
Qed.

(** [New] on a graph without [ifStep] and without cycle returns the
    executor. *)
Lemma New_accepts_if_free_dag h root :
  closed_from h root → if_free_from h root →
  (∀ t, rtc (edge h) root t → ¬ tc (edge h) t t) →
  New S_name Mw h root = Some (Some (mkExecutor root []), None).
Proof.
  intros Hclosed Hfree Hacyc. unfold New.
  pose proof (checkDAGCycles_fuel h root) as Hfuel.
  destruct (checkDAGCycles S_name h root) as [V|e| |] eqn:E; [done| | |done].
  - apply check_Failed_named in E as (m & n & Hr & _ & _ & Hm).
    destruct (Hm Hfree) as [?|Hcyc]; [set_solver|]. by destruct (Hacyc m).
  - apply check_NilStep in E as (t & Hr & Ht).
    destruct (Hclosed t Hr) as [? ?]. congruence.
Qed.

End ValidationFacts.

(** C1: the claim says that [New] succeeds on every graph without a
    back-edge, and in particular when one step instance is used in two
    branches.  The store [diamond_if] is [Series(x, x)] with [x] an
    [ifStep]: it has no cycle and no nil child, and [New] returns no
    executor and a cycle error naming the [ifStep].  The single-step case of
    the type switch returns before [delete(visited, ptr)], so [x] is still
    in [visited] at its second use. *)
Theorem New_rejects_shared_ifStep (S_name : string) (Mw : Type) :
  (∀ t, ¬ tc (edge diamond_if) t t) ∧
  closed_from diamond_if 1%positive ∧
  New S_name Mw diamond_if 1%positive =
    Some (None, Some (ErrInvalid (ErrCycle (stepTypeName S_name "ifStep")))).
Proof.
  split; [|split].
  - apply (ranked_acyclic _ (λ a, 4 - Pos.to_nat a)). store_check.
  - apply closed_store; [by eexists | store_check].
  - reflexivity.
Qed.

(** What [New] does by design on a graph with a cycle: when a step that
    can be reached from the start step can be reached from itself, and no
    child is nil, [New] returns no executor and an [ErrInvalid] wrapping
    an [ErrCycle] that names a step reachable from the start step; in a
    graph without [ifStep]s the step named lies on a cycle. *)
Theorem New_rejects_cycle (S_name : string) (Mw : Type) (h : gmap addr node)
    (root n : addr) :
  closed_from h root → rtc (edge h) root n → tc (edge h) n n →
  ∃ m nd, rtc (edge h) root m ∧ h !! m = Some nd ∧
    New S_name Mw h root =
      Some (None, Some (ErrInvalid (ErrCycle (nodeName S_name nd)))) ∧
    (if_free_from h root → tc (edge h) m m).
Proof.
  intros Hclosed Hr Hcyc. unfold New.
  pose proof (checkDAGCycles_fuel S_name h root) as Hfuel.
  destruct (checkDAGCycles S_name h root) as [V|e| |] eqn:E; [| | |done].
  - by destruct (check_Passed_acyclic _ _ _ _ _ _ _ E Hr).
  - apply check_Failed_named in E as (m & nd & Hm & Hnd & -> & Hfree).
    exists m, nd. split; [done|]. split; [done|]. split; [done|].
    intros Hf. destruct (Hfree Hf) as [?|?]; [set_solver|done].
  - apply check_NilStep in E as (t & Ht & Hnone).
    destruct (Hclosed t Ht) as [? ?]. congruence.
Qed.


Lemma two_loops_closed : closed_from two_loops 1%positive.
Proof. apply closed_store; [by eexists | store_check]. Defined.

Lemma New_rejects_cycle_witness :
  closed_from two_loops 1%positive ∧
  rtc (edge two_loops) 1%positive 3%positive ∧
  tc (edge two_loops) 3%positive 3%positive ∧
  ∃ m nd, rtc (edge two_loops) 1%positive m ∧ two_loops !! m = Some nd ∧
    New "S" unit two_loops 1%positive =
      Some (None, Some (ErrInvalid (ErrCycle (nodeName "S" nd)))) ∧
    (if_free_from two_loops 1%positive → tc (edge two_loops) m m).
Proof.
  assert (rtc (edge two_loops) 1%positive 3%positive) as Hreach
    by (apply rtc_once; store_edge).
  assert (tc (edge two_loops) 3%positive 3%positive) as Hcycle
    by (apply tc_once; store_edge).
  split; [exact two_loops_closed|]. split; [exact Hreach|]. split; [exact Hcycle|].
  exact (New_rejects_cycle "S" unit two_loops 1%positive 3%positive
           two_loops_closed Hreach Hcycle).
Defined.

(** Of several cycles the error names a step on the one the traversal
    meets first: in [two_loops] that is the [seriesStep] at address 2, not
    the [continueStep] at address 3. *)
Lemma New_names_first_cycle_only :
  closed_from two_loops 1%positive ∧
  rtc (edge two_loops) 1%positive 3%positive ∧
  tc (edge two_loops) 3%positive 3%positive ∧
  two_loops !! 3%positive = Some (NContinue [3%positive]) ∧
  New "S" unit two_loops 1%positive =
    Some (None, Some (ErrInvalid (ErrCycle "dagger:seriesStep[S]"))) ∧
  New "S" unit two_loops 1%positive ≠
    Some (None, Some (ErrInvalid (ErrCycle (nodeName "S" (NContinue [3%positive]))))).
Proof.
  split; [exact two_loops_closed|].
  split; [apply rtc_once; store_edge|].
  split; [apply tc_once; store_edge|].
  split; [reflexivity|]. split; [reflexivity|]. discriminate.
Qed.

(** C10: validation does not look at failure handlers ([New_dropHandler]),
    and [handler_loop], whose only way back to the start step is its
    default failure branch, is accepted.  But the claim promises success
    for every such graph: [handler_loop_shared_if] has no cycle in its
    children structure either, and [New] rejects it: its [ifStep] is both
    main and success step, and is still in [visited] when met again. *)
Theorem New_handler_loop_shared_ifStep (S_name : string) (Mw : Type) :
  (∀ t, ¬ tc (edge handler_loop_shared_if) t t) ∧
  closed_from handler_loop_shared_if 1%positive ∧
  New S_name Mw handler_loop_shared_if 1%positive =
    Some (None, Some (ErrInvalid (ErrCycle (stepTypeName S_name "ifStep")))) ∧
  New S_name Mw handler_loop 1%positive = Some (Some (mkExecutor 1%positive []), None).
Proof.
  split; [|split; [|split]].
  - apply (ranked_acyclic _ (λ a, 4 - Pos.to_nat a)). store_check.
  - apply closed_store; [by eexists | store_check].
  - reflexivity.
  - reflexivity.
Qed.

(** C4: the claim says that on a graph with a cycle the error of [New]
    names a step that can be reached from itself, the first at which the
    traversal finds a back-edge.  In [shared_if_then_loop], that is
    [Series(x, x, c)] with [x] an [ifStep] and [c] a [continueStep] made
    its own child, no child is nil and the only step that can be reached
    from itself is [c], at address 4.  [New] fails, but the error names
    the [ifStep]: a display identifier that no step on a cycle has.  The
    single-step case of the type switch returns before
    [delete(visited, ptr)], so [x] is still in [visited] at its second use,
    which comes before [c] is looked at. *)
Theorem New_names_shared_ifStep_before_cycle (S_name : string) (Mw : Type) :
  closed_from shared_if_then_loop 1%positive ∧
  rtc (edge shared_if_then_loop) 1%positive 4%positive ∧
  tc (edge shared_if_then_loop) 4%positive 4%positive ∧
  (∀ t, tc (edge shared_if_then_loop) t t → t = 4%positive) ∧
  shared_if_then_loop !! 4%positive = Some (NContinue [4%positive]) ∧
  New S_name Mw shared_if_then_loop 1%positive =
    Some (None, Some (ErrInvalid (ErrCycle (stepTypeName S_name "ifStep")))) ∧
  (∀ t nd, tc (edge shared_if_then_loop) t t → shared_if_then_loop !! t = Some nd →
     nodeName S_name nd = stepTypeName S_name "continueStep" ∧
     nodeName S_name nd ≠ stepTypeName S_name "ifStep").
Proof.
  assert (∀ t, tc (edge shared_if_then_loop) t t → t = 4%positive) as Honly.
  { apply (ranked_single_loop _ (λ a, 5 - Pos.to_nat a)). store_check. }
  split; [apply closed_store; [by eexists | store_check]|].
  split; [apply rtc_once; store_edge|].
  split; [apply tc_once; store_edge|].
  split; [exact Honly|]. split; [reflexivity|]. split; [reflexivity|].
  intros t nd Ht Hnd. rewrite (Honly t Ht) in Hnd. injection Hnd as <-.
  split; [reflexivity|]. cbv. discriminate.
Qed.

(** ** Errors *)

Lemma error_nested_ind (P : error → Prop) :
  (∀ id msg, P (userError id msg)) →
  (∀ msg e, P e → P (wrapError msg e)) →
  (∀ es, Forall P es → P (joinError es)) →
  (∀ n, P (ErrCycle n)) →
  (∀ e, P e → P (ErrInvalid e)) →
  ∀ e, P e.
Proof.
  intros Huser Hwrap Hjoin Hcycle Hinvalid. fix IH 1.
  intros [id msg|msg e|es|n|e].
  - apply Huser.
  - apply Hwrap, IH.
  - apply Hjoin. induction es as [|x xs IHxs]; constructor; [apply IH|exact IHxs].
  - apply Hcycle.
  - apply Hinvalid, IH.
Qed.

Lemma error_eqb_refl e : error_eqb e e = true.
Proof.
  induction e as [id msg|msg e IH|es IH|n|e IH] using error_nested_ind; simpl.
  - by rewrite !bool_decide_eq_true_2.
  - by rewrite bool_decide_eq_true_2, IH.
  - induction IH as [|x xs Hx _ IHxs]; [done|]. by rewrite Hx, IHxs.
  - by rewrite bool_decide_eq_true_2.
  - done.
Qed.

Lemma errors_Is_refl e : errors_Is e e = true.
Proof. destruct e; cbn [errors_Is]; by rewrite error_eqb_refl. Qed.

(** [errors.Is] finds what it finds in one of the joined failures. *)
Lemma errors_Is_leaf e x target :
  x ∈ join_leaves e → errors_Is x target = true → errors_Is e target = true.
Proof.
  revert x.
  induction e as [id msg|msg e IH|es IH|n|e IH] using error_nested_ind;
    intros x Hx Hxt; simpl in Hx;
    try (apply list_elem_of_singleton in Hx as ->; exact Hxt).
  cbn [errors_Is]. apply orb_true_intro. right.
  apply list_elem_of_In, in_flat_map in Hx as (e' & He' & Hx).
  apply existsb_exists. exists e'. split; [done|].
  rewrite Forall_forall in IH. eapply IH; [by apply list_elem_of_In| |done].
  by apply list_elem_of_In.
Qed.

Lemma errors_Is_wrapped name e : errors_Is (errorf_executing name e) e = true.
Proof.
  unfold errorf_executing. cbn [errors_Is]. rewrite errors_Is_refl. apply orb_true_r.
Qed.

Lemma leaves_of_Join (acc : option error) name e :
  leaves_of (errors_Join [acc; Some (errorf_executing name e)]) =
  leaves_of acc ++ [errorf_executing name e].
Proof. by destruct acc. Qed.

(** ** The execution engine *)

Section EngineFacts.

Context {S W Mw : Type} `{!StateType S} `{!middleware S W Mw}.

Implicit Types (ctx : context Mw) (state : S) (w : W).
Implicit Types (stp : Step S W Mw) (steps : list (Step S W Mw)).

(** *** The middleware chain *)

Lemma apply_from_take (mwc : list Mw) n next info :
  n ≤ length mwc →
  apply_from mwc n next info =
  foldr (λ mw acc, middleware_apply mw acc info) next (take n mwc).
Proof.
  revert next. induction n as [|i IH]; intros next Hn; simpl.
  - done.
  - destruct (lookup_lt_is_Some_2 mwc i) as [mw Hmw]; [lia|].
    rewrite Hmw, IH by lia.
    by rewrite (take_S_r _ _ _ Hmw), foldr_app.
Qed.

(** The loop from the last index down is a right fold: the first
    middleware of the chain is applied last, so it is outermost. *)
Lemma MiddlewareChain_apply_foldr (mwc : list Mw) next info :
  MiddlewareChain_apply mwc next info =
  foldr (λ mw acc, middleware_apply mw acc info) next mwc.
Proof.
  unfold MiddlewareChain_apply. rewrite apply_from_take by done.
  by rewrite firstn_all.
Qed.

Lemma Use_middlewares (e : Executor (Step S W Mw) Mw) (mwf : list Mw) :
  middlewares (Use e mwf) = middlewares e ++ mwf ∧ start (Use e mwf) = start e.
Proof.
  split; [|done]. simpl. generalize (middlewares e) as chain.
  induction mwf as [|m mwf IH]; intros chain; simpl.
  - by rewrite app_nil_r.
  - by rewrite IH, <- app_assoc.
Qed.

Lemma execWithContext_chain ctx (c : list Mw) stp state :
  Value ctx middlewareKey = Some (chainValue c) →
  execWithContext ctx stp state =
  Exec (MiddlewareChain_apply c stp (stepInfo stp)) ctx state.
Proof. intros H. unfold execWithContext. by rewrite H. Qed.

Lemma execWithContext_bare ctx stp state :
  Value ctx middlewareKey = None →
  execWithContext ctx stp state = Exec stp ctx state.
Proof. intros H. unfold execWithContext. by rewrite H. Qed.

(** *** Reference runs *)

Lemma run_each_length steps ctx state w rs w' :
  run_each steps ctx state w = (rs, w') → length rs = length steps.
Proof.
  revert w rs w'. induction steps as [|stp steps IH]; intros w rs w' H; simpl in H.
  - by injection H as <- _.
  - unfold bind, ret in H.
    destruct (execWithContext ctx stp state w) as [r w1].
    destruct (run_each steps ctx state w1) as [rs1 w2] eqn:E.
    injection H as <- _. simpl. f_equal. by eapply IH.
Qed.

Lemma failures_none steps rs :
  length rs = length steps → (failures steps rs = [] ↔ Forall (eq None) rs).
Proof.
  revert rs. induction steps as [|stp steps IH]; intros [|[e|] rs] Hlen;
    simpl in *; try done.
  - split; [done|]. intros Hall. by inversion Hall.
  - rewrite IH by lia. split; [by constructor|]. intros Hall. by inversion Hall.
Qed.

Lemma failures_lookup steps rs i stp e :
  steps !! i = Some stp → rs !! i = Some (Some e) →
  errorf_executing (StepName stp) e ∈ failures steps rs.
Proof.
  revert rs i. induction steps as [|s0 steps IH]; intros rs i Hs Hr; [done|].
  destruct rs as [|r0 rs]; [done|]. destruct i as [|i]; simpl in *.
  - injection Hs as ->. injection Hr as ->. left.
  - destruct r0; [right|]; by eapply IH.
Qed.

(** *** Sequence *)

Lemma seriesStep_Exec_all_nil steps ctx state w rs w' :
  run_each steps ctx state w = (rs, w') → Forall (eq None) rs →
  seriesStep_Exec steps ctx state w = (None, w').
Proof.
  revert w rs w'. induction steps as [|stp steps IH]; intros w rs w' H Hall; simpl in *.
  - by injection H as _ <-.
  - unfold bind, ret in *.
    destruct (execWithContext ctx stp state w) as [r w1].
    destruct (run_each steps ctx state w1) as [rs1 w2] eqn:E.
    injection H as <- <-. inversion Hall as [|? ? <- Hall']; subst.
    by eapply IH.
Qed.

Lemma seriesStep_Exec_first_error pre stp post ctx state w rs w1 e w2 :
  run_each pre ctx state w = (rs, w1) → Forall (eq None) rs →
  execWithContext ctx stp state w1 = (Some e, w2) →
  seriesStep_Exec (pre ++ stp :: post) ctx state w = (Some e, w2).
Proof.
  revert w rs w1. induction pre as [|p pre IH]; intros w rs w1 H Hall Hstp; simpl in *.
  - injection H as _ <-. unfold bind. by rewrite Hstp.
  - unfold bind, ret in *.
    destruct (execWithContext ctx p state w) as [r w0].
    destruct (run_each pre ctx state w0) as [rs1 w3] eqn:E.
    injection H as <- <-. inversion Hall as [|? ? <- Hall']; subst.
    by eapply IH.
Qed.

(** C7: [Series] runs its children in order.  When the children before
    [stp] all return nil and [stp] returns [e], the result is exactly [e]
    and the world is the one [stp] left, whatever follows [stp]; when all
    children return nil so does [Series]. *)
Theorem Series_stops_at_first_error pre stp post ctx state w rs w1 :
  run_each pre ctx state w = (rs, w1) → Forall (eq None) rs →
  (∀ e w2, execWithContext ctx stp state w1 = (Some e, w2) →
     Exec (Series (pre ++ stp :: post)) ctx state w = (Some e, w2)) ∧
  Exec (Series pre) ctx state w = (None, w1).
Proof.
  intros Hpre Hall. split.
  - intros e w2 Hstp. by eapply seriesStep_Exec_first_error.
  - by eapply seriesStep_Exec_all_nil.
Qed.

(** *** Best-effort sequence *)

Lemma continueStep_loop_spec steps ctx state (acc : option error) w rs w' :
  run_each steps ctx state w = (rs, w') →
  ∃ err, continueStep_loop steps ctx state acc w = (err, w') ∧
    leaves_of err = leaves_of acc ++ failures steps rs ∧
    (err = None ↔ acc = None ∧ Forall (eq None) rs).
Proof.
  revert acc w rs w'. induction steps as [|stp steps IH]; intros acc w rs w' H; simpl in *.
  - injection H as <- <-. exists acc. split; [done|]. split; [by rewrite app_nil_r|].
    naive_solver.
  - unfold bind, ret in *.
    destruct (execWithContext ctx stp state w) as [[e|] w1].
    + destruct (run_each steps ctx state w1) as [rs1 w2] eqn:E.
      injection H as <- <-.
      destruct (IH (errors_Join [acc; Some (errorf_executing (StepName stp) e)]) _ _ _ E)
        as (err & Hloop & Hleaves & Hnone).
      exists err. split; [done|]. split.
      * by rewrite Hleaves, leaves_of_Join, <- app_assoc.
      * split.
        -- intros Herr. apply Hnone in Herr as [Hj _]. by destruct acc.
        -- intros [_ Hall]. by inversion Hall.
    + destruct (run_each steps ctx state w1) as [rs1 w2] eqn:E.
      injection H as <- <-.
      destruct (IH acc _ _ _ E) as (err & Hloop & Hleaves & Hnone).
      exists err. split; [done|]. split; [done|].
      rewrite Hnone. split.
      * intros [? ?]. split; [done|by constructor].
      * intros [? Hall]. split; [done|by inversion Hall].
Qed.

(** The reference list written out: one [fmt.Errorf] value per failure,
    with the message and the wrapped error that the call in
    [continueStep.Exec] gives it. *)
Lemma failures_annotated steps (rs : list (option error)) :
  failures steps rs =
  omap id (zip_with
             (λ stp r,
                (λ e, wrapError ("error executing step " +:+ StepName stp +:+ ": "
                                   +:+ Error e) e) <$> r)
             steps rs).
Proof.
  revert rs. induction steps as [|stp steps IH]; intros [|[e|] rs]; simpl; try done.
  by rewrite IH.
Qed.

(** C6: [Continue] leaves the world that running every child once, in
    order, leaves.  It returns nil exactly when every child returned nil;
    otherwise the error joins, in the order of the children, one wrapper
    per failure: the wrapper of a child that returned [e] has the message
    "error executing step <display identifier of the child>: <message of
    e>" and wraps [e], and [errors.Is] finds [e] in the joined error.
    (Errors of the children are comparable values, as [errors.New] gives
    them.) *)
Theorem Continue_runs_all_and_joins steps ctx state w rs w' :
  run_each steps ctx state w = (rs, w') →
  ∃ err, Exec (Continue steps) ctx state w = (err, w') ∧
    (err = None ↔ Forall (eq None) rs) ∧
    leaves_of err = failures steps rs ∧
    leaves_of err =
      omap id (zip_with
                 (λ stp r,
                    (λ e, wrapError ("error executing step " +:+ StepName stp +:+ ": "
                                       +:+ Error e) e) <$> r)
                 steps rs) ∧
    (∀ i stp e, steps !! i = Some stp → rs !! i = Some (Some e) →
       ∃ joined, err = Some joined ∧ errors_Is joined e = true ∧
         wrapError ("error executing step " +:+ StepName stp +:+ ": " +:+ Error e) e
           ∈ join_leaves joined ∧
         Error (wrapError ("error executing step " +:+ StepName stp +:+ ": "
                             +:+ Error e) e) =
           "error executing step " +:+ StepName stp +:+ ": " +:+ Error e).
Proof.
  intros H.
  destruct (continueStep_loop_spec steps ctx state None w rs w' H)
    as (err & Hloop & Hleaves & Hnone).
  exists err. split; [done|]. split; [naive_solver|]. split; [done|].
  split; [by rewrite <- failures_annotated|].
  intros i stp e Hs Hr.
  pose proof (failures_lookup _ _ _ _ _ Hs Hr) as Hin. simpl in Hleaves.
  rewrite <- Hleaves in Hin. destruct err as [joined|]; [|by apply elem_of_nil in Hin].
  exists joined. split; [done|]. split; [|split; [exact Hin|done]].
  eapply errors_Is_leaf; [done|]. apply errors_Is_wrapped.
Qed.

(** *** Conditionals *)

(** C9: with [b] what the predicate returns and [w1] the world it leaves,
    [If] runs [thenStep] when [b] is true and returns nil otherwise, in the
    world the predicate left; [IfNot] does the opposite; [IfElse] runs
    [thenStep] when [b] is true and [elseStep] otherwise.  Running a step
    is a call of its [Exec] with the context received, the state received
    and the world the predicate left: of the step itself when the context
    carries no chain, of the step wrapped by the chain otherwise.  The
    predicate is called once and the other branch is not run. *)
Theorem Conditional_runs_by_predicate (condition : Selector S W)
    (thenStep elseStep : Step S W Mw) ctx state w :
  (Exec (If condition thenStep) ctx state w =
     (if (condition state w).1
      then execWithContext ctx thenStep state (condition state w).2
      else (None, (condition state w).2)) ∧
   Exec (IfNot condition thenStep) ctx state w =
     (if (condition state w).1
      then (None, (condition state w).2)
      else execWithContext ctx thenStep state (condition state w).2) ∧
   Exec (IfElse condition thenStep elseStep) ctx state w =
     (if (condition state w).1
      then execWithContext ctx thenStep state (condition state w).2
      else execWithContext ctx elseStep state (condition state w).2)) ∧
  (∀ b w1, condition state w = (b, w1) →
     (Value ctx middlewareKey = None →
        Exec (If condition thenStep) ctx state w =
          (if b then Exec thenStep ctx state w1 else (None, w1)) ∧
        Exec (IfNot condition thenStep) ctx state w =
          (if b then (None, w1) else Exec thenStep ctx state w1) ∧
        Exec (IfElse condition thenStep elseStep) ctx state w =
          (if b then Exec thenStep ctx state w1 else Exec elseStep ctx state w1)) ∧
     (∀ chain : list Mw, Value ctx middlewareKey = Some (chainValue chain) →
        Exec (If condition thenStep) ctx state w =
          (if b then Exec (Wrap chain thenStep) ctx state w1 else (None, w1)) ∧
        Exec (IfNot condition thenStep) ctx state w =
          (if b then (None, w1) else Exec (Wrap chain thenStep) ctx state w1) ∧
        Exec (IfElse condition thenStep elseStep) ctx state w =
          (if b then Exec (Wrap chain thenStep) ctx state w1
           else Exec (Wrap chain elseStep) ctx state w1))).
Proof.
  split.
  - simpl. unfold ifStep_Exec, ifElseStep_Exec, bind, ret.
    destruct (condition state w) as [[|] w1]; simpl; done.
  - intros b w1 Hcond. split.
    + intros Hbare. simpl. unfold ifStep_Exec, ifElseStep_Exec, bind, ret.
      rewrite Hcond. rewrite !execWithContext_bare by done.
      by destruct b.
    + intros chain Hchain. simpl. unfold ifStep_Exec, ifElseStep_Exec, bind, ret.
      rewrite Hcond. rewrite !(execWithContext_chain _ chain) by done.
      by destruct b.
Qed.

(** *** Result *)

Lemma resultErr_roundtrip ctx err :
  resultErrFromContext (resultErrToContext ctx err) = Some err ∧
  Value (resultErrToContext ctx err) middlewareKey = Value ctx middlewareKey.
Proof. done. Qed.

(** C3: the four cases of [Result].  [w1] is the world the main step
    leaves and [w2] the world the handler's selection leaves. *)
Theorem Result_outcome (mainStep successStep : Step S W Mw) ctx state w w1 :
  (execWithContext ctx mainStep state w = (None, w1) →
     ∀ failureHandler,
       Exec (Result mainStep successStep failureHandler) ctx state w =
       execWithContext ctx successStep state w1) ∧
  (∀ err, execWithContext ctx mainStep state w = (Some err, w1) →
     Exec (Result mainStep successStep None) ctx state w = (Some err, w1) ∧
     ∀ fh w2,
       (selectStep fh ctx err w1 = (None, w2) →
          Exec (Result mainStep successStep (Some fh)) ctx state w = (Some err, w2)) ∧
       (∀ stp, selectStep fh ctx err w1 = (Some stp, w2) →
          Exec (Result mainStep successStep (Some fh)) ctx state w =
            execWithContext (resultErrToContext ctx err) stp state w2 ∧
          resultErrFromContext (resultErrToContext ctx err) = Some err)).
Proof.
  split.
  - intros Hmain fh. simpl. unfold resultStep_Exec, bind. by rewrite Hmain.
  - intros err Hmain. simpl. unfold resultStep_Exec, handleErr, bind, ret.
    rewrite Hmain. split; [done|]. intros fh w2. split.
    + intros Hsel. by rewrite Hsel.
    + intros stp Hsel. by rewrite Hsel.
Qed.

(** *** Failure handlers *)

Lemma HandleMultiFailure_nil ctx err w :
  selectStep (HandleMultiFailure (S:=S) (W:=W) []) ctx err w = (None, w).
Proof. done. Qed.

Lemma HandleMultiFailure_branch (selector : FailureSelector W Mw) stp rest ctx err w :
  selectStep (HandleMultiFailure (NewBranch selector stp :: rest)) ctx err w =
    (if (selector ctx err w).1 then (Some stp, (selector ctx err w).2)
     else selectStep (HandleMultiFailure rest) ctx err (selector ctx err w).2).
Proof.
  simpl. unfold bind, ret. by destruct (selector ctx err w) as [[|] w1].
Qed.

(** C2: the claim lets the default branch's step be returned only when no
    selector matches.  [HandleMultiFailure] keeps a default branch at the
    position it was given, and [selectStep] returns the step of the first
    branch that yields one: a default branch listed first is selected
    whatever the selectors after it would say; they are not even called
    (the world [w] is returned untouched). *)
Theorem HandleMultiFailure_default_first (defaultStep : Step S W Mw)
    (rest : list (FailureBranch S W Mw)) ctx err w :
  selectStep (HandleMultiFailure (DefaultBranch defaultStep :: rest)) ctx err w =
    (Some defaultStep, w).
Proof. done. Qed.

End EngineFacts.

(** ** Interceptors around the steps *)

Section InterceptorFacts.

Context {S W : Type} `{!StateType S}.

Local Abbreviation Mw := (interceptor S W).

Implicit Types (ctx : context Mw) (state : S) (w : W).
Implicit Types (stp next : Step S W Mw) (chain : list Mw).

Lemma apply_around chain next info ctx state w :
  Exec (MiddlewareChain_apply chain next info) ctx state w =
  around chain info (Exec next ctx) state w.
Proof.
  rewrite MiddlewareChain_apply_foldr. revert state w.
  induction chain as [|mw chain IH]; intros state w; simpl; [done|].
  unfold bind. destruct (before mw info state w) as [state' w1].
  by rewrite IH.
Qed.

Lemma execWithContext_around ctx stp state w :
  execWithContext ctx stp state w =
  around (chain_of ctx) (stepInfo stp) (Exec stp ctx) state w.
Proof.
  unfold execWithContext, chain_of.
  destruct (Value ctx middlewareKey) as [[c|e]|]; [apply apply_around|done..].
Qed.

Lemma stepWithErr_around f ctx state w :
  Exec (NewResultErrStep f) ctx state w =
  around (chain_of ctx) (mkInfo (exec_fm_name (S:=S)) true)
    (λ st, f ctx st (resultErrFromContext ctx)) state w.
Proof.
  simpl. unfold stepWithErr_Exec, chain_of.
  destruct (Value ctx middlewareKey) as [[c|e]|]; [|done..].
  by rewrite apply_around.
Qed.

Lemma around_ext chain info (k k' : S → M W (option error)) state w :
  (∀ st w0, k st w0 = k' st w0) →
  around chain info k state w = around chain info k' state w.
Proof.
  intros Hk. revert state w. induction chain as [|mw chain IH]; intros state w; simpl.
  - apply Hk.
  - unfold bind. destruct (before mw info state w) as [state' w1]. by rewrite IH.
Qed.


(** *** Step trees: what an error-aware step is given *)

Lemma chain_of_resultErr ctx err : chain_of (resultErrToContext ctx err) = chain_of ctx.
Proof. done. Qed.

Lemma resultErr_withMiddlewares ctx chain :
  resultErrFromContext (withMiddlewares ctx chain) = resultErrFromContext ctx ∧
  chain_of (withMiddlewares ctx chain) = chain.
Proof. done. Qed.

Lemma execWithContext_runNearest (p : plan S W) ctx state w :
  (∀ ctx' st w0,
     Exec (build p) ctx' st w0 = runNearest p ctx' (resultErrFromContext ctx') st w0) →
  execWithContext ctx (build p) state w =
  around (chain_of ctx) (stepInfo (build p))
    (runNearest p ctx (resultErrFromContext ctx)) state w.
Proof.
  intros IH. rewrite execWithContext_around. apply around_ext. intros st w0. apply IH.
Qed.

(** The package's run of a tree hands every error-aware step the error
    that the rule of [runNearest] gives it, starting from the error the
    context carries. *)
Lemma Exec_build_runNearest :
  (∀ (p : plan S W) ctx state w,
     Exec (build p) ctx state w = runNearest p ctx (resultErrFromContext ctx) state w) ∧
  (∀ (ps : plans S W) ctx state w,
     seriesStep_Exec (build_all ps) ctx state w =
       runNearest_series ps ctx (resultErrFromContext ctx) state w ∧
     ∀ acc, continueStep_loop (build_all ps) ctx state acc w =
       runNearest_continue ps ctx (resultErrFromContext ctx) state acc w) ∧
  (∀ (h : handler S W) ctx state err w,
     handleErr (build_handler h) ctx state err w = runNearest_handler h ctx state err w) ∧
  (∀ (bs : branches S W) ctx state err w,
     handleErr (Some (HandleMultiFailure (build_branches bs))) ctx state err w =
       runNearest_branches bs ctx state err w).
Proof.
  apply (plan_mutind S W
    (λ p, ∀ ctx state w,
       Exec (build p) ctx state w = runNearest p ctx (resultErrFromContext ctx) state w)
    (λ ps, ∀ ctx state w,
       seriesStep_Exec (build_all ps) ctx state w =
         runNearest_series ps ctx (resultErrFromContext ctx) state w ∧
       ∀ acc, continueStep_loop (build_all ps) ctx state acc w =
         runNearest_continue ps ctx (resultErrFromContext ctx) state acc w)
    (λ h, ∀ ctx state err w,
       handleErr (build_handler h) ctx state err w = runNearest_handler h ctx state err w)
    (λ bs, ∀ ctx state err w,
       handleErr (Some (HandleMultiFailure (build_branches bs))) ctx state err w =
         runNearest_branches bs ctx state err w)).
  - (* PStep *) done.
  - (* PErrStep *) intros f ctx state w. apply stepWithErr_around.
  - (* PIf *) intros c t IH ctx state w.
    cbn [build runNearest Exec If]. unfold ifStep_Exec, bind, ret.
    destruct (c state w) as [[|] w1]; [|done].
    by apply execWithContext_runNearest.
  - (* PIfElse *) intros c t IHt e IHe ctx state w.
    cbn [build runNearest Exec IfElse]. unfold ifElseStep_Exec, bind, ret.
    destruct (c state w) as [[|] w1]; by apply execWithContext_runNearest.
  - (* PSeries *) intros ps IH ctx state w. apply (IH ctx state w).
  - (* PContinue *) intros ps IH ctx state w. apply (IH ctx state w).
  - (* PResult *) intros m IHm sc IHs h IHh ctx state w.
    cbn [build runNearest Exec Result]. unfold resultStep_Exec, bind.
    rewrite (execWithContext_runNearest m) by done.
    destruct (around _ _ _ state w) as [[err|] w1]; [apply IHh|].
    by apply execWithContext_runNearest.
  - (* pnil *) done.
  - (* pcons *) intros q IHq rest IHrest ctx state w.
    cbn [build_all runNearest_series runNearest_continue seriesStep_Exec continueStep_loop].
    unfold bind, ret. rewrite (execWithContext_runNearest q) by done.
    destruct (around _ _ _ state w) as [[e|] w1].
    + split; [done|]. intros acc. apply (IHrest ctx state w1).
    + split; [apply (IHrest ctx state w1)|]. intros acc. apply (IHrest ctx state w1).
  - (* NoHandler *) done.
  - (* StepFuncHandler *) intros f ctx state err w.
    cbn [build_handler runNearest_handler handleErr StepFunc_selectStep selectStep].
    unfold bind, ret. by rewrite execWithContext_around.
  - (* MultiFailure *) intros bs IH ctx state err w. apply IH.
  - (* bnil *) done.
  - (* bBranch *) intros sel q IHq rest IHrest ctx state err w.
    cbn [build_branches runNearest_branches handleErr HandleMultiFailure map
         multiFailureHandler multiFailureHandler_loop selectStep
         failureBranch_selectStep].
    unfold bind, ret. destruct (sel ctx err w) as [[|] w1].
    + by rewrite (execWithContext_runNearest q).
    + apply (IHrest ctx state err w1).
  - (* bDefault *) intros q IHq rest _ ctx state err w.
    cbn [build_branches runNearest_branches handleErr HandleMultiFailure map
         multiFailureHandler multiFailureHandler_loop selectStep
         defaultBranch_selectStep].
    unfold bind, ret. by rewrite (execWithContext_runNearest q).
Qed.

Lemma Executor_Exec_around (root : Step S W Mw) chain ctx state w :
  Executor_Exec (Use (mkExecutor root []) chain) ctx state w =
  around chain (stepInfo root) (Exec root (withMiddlewares ctx chain)) state w.
Proof.
  unfold Executor_Exec.
  destruct (Use_middlewares (mkExecutor root []) chain) as [-> ->].
  apply apply_around.
Qed.

Lemma execWithContext_stepWithErr f ctx state w :
  execWithContext ctx (NewResultErrStep f) state w =
  around (chain_of ctx) (mkInfo (genericName "stepWithErr") false)
    (around (chain_of ctx) (mkInfo (exec_fm_name (S:=S)) true)
       (λ st, f ctx st (resultErrFromContext ctx))) state w.
Proof.
  rewrite execWithContext_around.
  apply around_ext. intros st0 w0. apply stepWithErr_around.
Qed.

(** C8: an error-aware step is given the error of the innermost failure
    path it runs in, and nil when there is none.
    - First part: when the main step of a [Result] fails with [err] and the
      handler selects an error-aware step, the function behind that step is
      called with exactly [err], inside whatever the chain of the context
      puts around it.  The context is arbitrary: an error of an enclosing
      [Result] that it carries is shadowed.
    - Second to fourth part: in any context the function is called with the
      error that context carries; with nil when it carries none; and an
      executor started with such a context adds none, so a step that is
      the start step is called with nil.
    - Fifth part: a [Result] selected by the handler of another [Result]
      whose own handler selects the step: the step is called with the
      error of the inner main step.
    - Sixth part: a [Result] selected by the handler of another [Result]
      whose main step returns nil and whose success step is the
      error-aware step: the step is called with the error of the outer
      main step.
    - Last two parts: for every tree of steps, the run of the package calls
      each error-aware step in it with the error [runNearest] hands down,
      starting from the error of the context, and from nil under an
      executor started with a context that carries none. *)
Theorem error_aware_step_sees_nearest_error
    (f : context Mw → S → option error → M W (option error)) state :
  (∀ mainStep successStep fh ctx w err w1 w2,
     execWithContext ctx mainStep state w = (Some err, w1) →
     selectStep fh ctx err w1 = (Some (NewResultErrStep f), w2) →
     Exec (Result mainStep successStep (Some fh)) ctx state w =
     around (chain_of ctx) (mkInfo (genericName "stepWithErr") false)
       (around (chain_of ctx) (mkInfo (exec_fm_name (S:=S)) true)
          (λ st, f (resultErrToContext ctx err) st (Some err))) state w2) ∧
  (∀ ctx w,
     execWithContext ctx (NewResultErrStep f) state w =
     around (chain_of ctx) (mkInfo (genericName "stepWithErr") false)
       (around (chain_of ctx) (mkInfo (exec_fm_name (S:=S)) true)
          (λ st, f ctx st (resultErrFromContext ctx))) state w) ∧
  (∀ ctx w,
     resultErrFromContext ctx = None →
     execWithContext ctx (NewResultErrStep f) state w =
     around (chain_of ctx) (mkInfo (genericName "stepWithErr") false)
       (around (chain_of ctx) (mkInfo (exec_fm_name (S:=S)) true)
          (λ st, f ctx st None)) state w) ∧
  (∀ chain ctx w,
     resultErrFromContext ctx = None →
     Executor_Exec (Use (mkExecutor (NewResultErrStep f) []) chain) ctx state w =
     around chain (mkInfo (genericName "stepWithErr") false)
       (around chain (mkInfo (exec_fm_name (S:=S)) true)
          (λ st, f (withMiddlewares ctx chain) st None)) state w) ∧
  (∀ outerMain outerSuccess outerHandler mainStep successStep fh
     ctx w outerErr wa wb err wc wd,
     Value ctx middlewareKey = None →
     execWithContext ctx outerMain state w = (Some outerErr, wa) →
     selectStep outerHandler ctx outerErr wa =
       (Some (Result mainStep successStep (Some fh)), wb) →
     execWithContext (resultErrToContext ctx outerErr) mainStep state wb =
       (Some err, wc) →
     selectStep fh (resultErrToContext ctx outerErr) err wc =
       (Some (NewResultErrStep f), wd) →
     Exec (Result outerMain outerSuccess (Some outerHandler)) ctx state w =
     f (resultErrToContext (resultErrToContext ctx outerErr) err) state (Some err) wd) ∧
  (∀ outerMain outerSuccess outerHandler mainStep fh ctx w outerErr wa wb wc,
     Value ctx middlewareKey = None →
     execWithContext ctx outerMain state w = (Some outerErr, wa) →
     selectStep outerHandler ctx outerErr wa =
       (Some (Result mainStep (NewResultErrStep f) fh), wb) →
     execWithContext (resultErrToContext ctx outerErr) mainStep state wb = (None, wc) →
     Exec (Result outerMain outerSuccess (Some outerHandler)) ctx state w =
     f (resultErrToContext ctx outerErr) state (Some outerErr) wc) ∧
  (∀ (p : plan S W) ctx w,
     Exec (build p) ctx state w =
     runNearest p ctx (resultErrFromContext ctx) state w) ∧
  (∀ (p : plan S W) chain ctx w,
     resultErrFromContext ctx = None →
     Executor_Exec (Use (mkExecutor (build p) []) chain) ctx state w =
     around chain (stepInfo (build p))
       (runNearest p (withMiddlewares ctx chain) None) state w).
Proof.
  pose proof (execWithContext_stepWithErr f) as Hstep.
  assert (∀ mainStep successStep fh ctx w err w1 w2,
    execWithContext ctx mainStep state w = (Some err, w1) →
    selectStep fh ctx err w1 = (Some (NewResultErrStep f), w2) →
    Exec (Result mainStep successStep (Some fh)) ctx state w =
    around (chain_of ctx) (mkInfo (genericName "stepWithErr") false)
      (around (chain_of ctx) (mkInfo (exec_fm_name (S:=S)) true)
         (λ st, f (resultErrToContext ctx err) st (Some err))) state w2) as Hsel.
  { intros mainStep successStep fh ctx w err w1 w2 Hmain Hfh.
    simpl. unfold resultStep_Exec, handleErr, bind. rewrite Hmain, Hfh.
    by rewrite Hstep. }
  split; [exact Hsel|]. split; [intros ctx w; apply Hstep|]. split; [|split].
  - intros ctx w Hnone. rewrite Hstep. by rewrite Hnone.
  - intros chain ctx w Hnone. rewrite Executor_Exec_around.
    apply around_ext. intros st0 w0. rewrite stepWithErr_around.
    destruct (resultErr_withMiddlewares ctx chain) as [-> ->]. by rewrite Hnone.
  - split; [|split; [|split]].
    + intros outerMain outerSuccess outerHandler mainStep successStep fh
        ctx w outerErr wa wb err wc wd Hbare Houter Hpick Hmain Hfh.
      simpl. unfold resultStep_Exec at 1, handleErr, bind. rewrite Houter, Hpick.
      rewrite execWithContext_bare by done.
      rewrite (Hsel _ _ _ _ _ _ _ _ Hmain Hfh).
      unfold chain_of. simpl. by rewrite Hbare.
    + intros outerMain outerSuccess outerHandler mainStep fh
        ctx w outerErr wa wb wc Hbare Houter Hpick Hmain.
      simpl. unfold resultStep_Exec at 1, handleErr, bind. rewrite Houter, Hpick.
      rewrite execWithContext_bare by done.
      cbn [Exec Result]. unfold resultStep_Exec, bind. rewrite Hmain.
      rewrite Hstep. unfold chain_of. simpl. by rewrite Hbare.
    + intros p ctx w. apply Exec_build_runNearest.
    + intros p chain ctx w Hnone. rewrite Executor_Exec_around.
      apply around_ext. intros st0 w0.
      rewrite (proj1 Exec_build_runNearest).
      destruct (resultErr_withMiddlewares ctx chain) as [-> _]. by rewrite Hnone.
Qed.

End InterceptorFacts.

(** ** The properties on the test bench

    The runs below are those of the package's tests, with the buffer as
    world: each step appends its name when it runs. *)

Lemma Series_stops_at_first_error_witness :
  run_each [appendStep "s1" None] [] mkTestState [] = ([None], ["s1"]) ∧
  Forall (eq None) [@None error] ∧
  execWithContext [] (appendStep "s2" (Some testErrStep)) mkTestState ["s1"] =
    (Some testErrStep, ["s1"; "s2"]) ∧
  Exec (Series [appendStep "s1" None; appendStep "s2" (Some testErrStep);
                appendStep "s3" None]) [] mkTestState [] =
    (Some testErrStep, ["s1"; "s2"]) ∧
  Exec (Series [appendStep "s1" None]) [] mkTestState [] = (None, ["s1"]).
Proof.
  assert (run_each [appendStep "s1" None] [] mkTestState [] = ([None], ["s1"]))
    as Hpre by reflexivity.
  assert (Forall (eq None) [@None error]) as Hall by (repeat constructor).
  assert (execWithContext [] (appendStep "s2" (Some testErrStep)) mkTestState ["s1"] =
            (Some testErrStep, ["s1"; "s2"])) as Hfail by reflexivity.
  destruct (Series_stops_at_first_error
              [appendStep "s1" None] (appendStep "s2" (Some testErrStep))
              [appendStep "s3" None] [] mkTestState [] [None] ["s1"] Hpre Hall)
    as [Hstop Hok].
  split; [exact Hpre|]. split; [exact Hall|]. split; [exact Hfail|].
  split; [exact (Hstop _ _ Hfail) | exact Hok].
Defined.

Lemma Continue_runs_all_and_joins_witness :
  run_each continueSteps [] mkTestState [] =
    (continueOutcomes, ["s1"; "s2"; "s3"; "s4"]) ∧
  ∃ err,
    Exec (Continue continueSteps) [] mkTestState [] = (err, ["s1"; "s2"; "s3"; "s4"]) ∧
    (err = None ↔ Forall (eq None) continueOutcomes) ∧
    leaves_of err = failures continueSteps continueOutcomes ∧
    leaves_of err =
      [wrapError "error executing step s2: step error" testErrStep;
       wrapError "error executing step s4: not found" notFoundStep] ∧
    (∀ i stp e,
       continueSteps !! i = Some stp → continueOutcomes !! i = Some (Some e) →
       ∃ joined, err = Some joined ∧ errors_Is joined e = true ∧
         wrapError ("error executing step " +:+ StepName stp +:+ ": " +:+ Error e) e
           ∈ join_leaves joined ∧
         Error (wrapError ("error executing step " +:+ StepName stp +:+ ": "
                             +:+ Error e) e) =
           "error executing step " +:+ StepName stp +:+ ": " +:+ Error e).
Proof.
  assert (run_each continueSteps [] mkTestState [] =
            (continueOutcomes, ["s1"; "s2"; "s3"; "s4"])) as Hrun by reflexivity.
  split; [exact Hrun|].
  exact (Continue_runs_all_and_joins continueSteps [] mkTestState []
           continueOutcomes _ Hrun).
Defined.

Lemma Result_outcome_witness :
  (execWithContext [] (appendStep "main" None) mkTestState [] = (None, ["main"]) ∧
   Exec (Result (appendStep "main" None) (appendStep "success" None)
           (Some matchingHandler)) [] mkTestState [] =
     (None, ["main"; "success"])) ∧
  (execWithContext [] (appendStep "main" (Some testErrStep)) mkTestState [] =
     (Some testErrStep, ["main"]) ∧
   Exec (Result (appendStep "main" (Some testErrStep)) (appendStep "success" None) None)
     [] mkTestState [] = (Some testErrStep, ["main"])) ∧
  (selectStep noMatchHandler [] testErrStep ["main"] =
     (None, ["main"; "selector not found"]) ∧
   Exec (Result (appendStep "main" (Some testErrStep)) (appendStep "success" None)
           (Some noMatchHandler)) [] mkTestState [] =
     (Some testErrStep, ["main"; "selector not found"])) ∧
  (selectStep matchingHandler [] testErrStep ["main"] =
     (Some failureStep, ["main"; "selector step error"]) ∧
   Exec (Result (appendStep "main" (Some testErrStep)) (appendStep "success" None)
           (Some matchingHandler)) [] mkTestState [] =
     (Some notFoundStep, ["main"; "selector step error"; "failure"])).
Proof.
  assert (execWithContext [] (appendStep "main" None) mkTestState [] = (None, ["main"]))
    as Hok by reflexivity.
  assert (execWithContext [] (appendStep "main" (Some testErrStep)) mkTestState [] =
            (Some testErrStep, ["main"])) as Hfail by reflexivity.
  assert (selectStep noMatchHandler [] testErrStep ["main"] =
            (None, ["main"; "selector not found"])) as Hnone by reflexivity.
  assert (selectStep matchingHandler [] testErrStep ["main"] =
            (Some failureStep, ["main"; "selector step error"])) as Hsome by reflexivity.
  destruct (Result_outcome (appendStep "main" None) (appendStep "success" None)
              [] mkTestState [] ["main"]) as [Hnil _].
  destruct (Result_outcome (appendStep "main" (Some testErrStep))
              (appendStep "success" None) [] mkTestState [] ["main"]) as [_ Herr].
  destruct (Herr testErrStep Hfail) as [Habsent Hfh].
  split; [split; [exact Hok|]|split; [split; [exact Hfail|exact Habsent]|split]].
  - rewrite (Hnil Hok (Some matchingHandler)). reflexivity.
  - split; [exact Hnone|].
    exact (proj1 (Hfh noMatchHandler _) Hnone).
  - split; [exact Hsome|].
    destruct (proj2 (Hfh matchingHandler _) failureStep Hsome) as [-> _]. reflexivity.
Defined.


(** The error-aware step of [TestStepWithErr_Exec], writing what it is
    given: as the selected failure step; outside any [Result], with and
    without an executor; as the failure step of a [Result] that is itself
    the failure step of another; as the success step of such a [Result];
    and in the six places of [observingPlan]. *)
Lemma error_aware_step_sees_nearest_error_witness :
  (execWithContext [] (appendStep "main" (Some testErrStep)) mkTestState [] =
     (Some testErrStep, ["main"]) ∧
   selectStep observingHandler [] testErrStep ["main"] =
     (Some observeStep, ["main"; "selector step error"]) ∧
   Exec (Result (appendStep "main" (Some testErrStep)) (appendStep "success" None)
           (Some observingHandler)) [] mkTestState [] =
     (None, ["main"; "selector step error"; "saw step error"])) ∧
  (resultErrFromContext (Mw:=interceptor testState buffer) [] = None ∧
   execWithContext [] observeStep mkTestState [] = (None, ["saw nil"]) ∧
   Executor_Exec (Use (mkExecutor observeStep []) [testLogMiddleware "L1"])
     [] mkTestState [] =
     (None,
      ["L1: Starting step dagger:stepWithErr[testState]";
       "L1: Starting step dagger:stepWithErr[...].Exec.func1";
       "saw nil";
       "L1: dagger:stepWithErr[...].Exec.func1 done";
       "L1: dagger:stepWithErr[testState] done"])) ∧
  Exec (Result (appendStep "outer" (Some notFoundStep)) (appendStep "success" None)
          (Some (HandleMultiFailure [DefaultBranch innerResult])))
    [] mkTestState [] =
    (None, ["outer"; "inner"; "saw step error"]) ∧
  Exec (Result (appendStep "outer" (Some notFoundStep)) (appendStep "success" None)
          (Some (HandleMultiFailure [DefaultBranch innerSuccessResult])))
    [] mkTestState [] =
    (None, ["outer"; "inner"; "saw not found"]) ∧
  Exec (build observingPlan) [] mkTestState [] =
    (None,
     ["saw nil"; "outer"; "saw not found"; "inner"; "selector step error";
      "saw step error"; "second"; "saw not found"; "saw not found"; "saw nil"]) ∧
  Executor_Exec (Use (mkExecutor (build (PSeries (pcons observePlan pnil))) [])
                   [testLogMiddleware "L1"])
    [] mkTestState [] =
    (None,
     ["L1: Starting step dagger:seriesStep[testState]";
      "L1: Starting step dagger:stepWithErr[testState]";
      "L1: Starting step dagger:stepWithErr[...].Exec.func1";
      "saw nil";
      "L1: dagger:stepWithErr[...].Exec.func1 done";
      "L1: dagger:stepWithErr[testState] done";
      "L1: dagger:seriesStep[testState] done"]).
Proof.
  assert (execWithContext [] (appendStep "main" (Some testErrStep)) mkTestState [] =
            (Some testErrStep, ["main"])) as Hmain by reflexivity.
  assert (selectStep observingHandler [] testErrStep ["main"] =
            (Some observeStep, ["main"; "selector step error"])) as Hpick by reflexivity.
  assert (resultErrFromContext (Mw:=interceptor testState buffer) [] = None) as Hnone
    by reflexivity.
  destruct (error_aware_step_sees_nearest_error
              (S:=testState) (W:=buffer)
              (λ _ _ resErr w,
                 (None, w ++ [match resErr with
                              | Some e => "saw " +:+ Error e
                              | None => "saw nil"
                              end]))
              mkTestState)
    as (Hsel & _ & Hout & Hexec & Hnest & Hsucc & Htree & Htree_exec).
  split; [split; [exact Hmain|split; [exact Hpick|]]|].
  { rewrite (Hsel _ (appendStep "success" None) observingHandler [] [] testErrStep _ _
               Hmain Hpick).
    reflexivity. }
  split; [split; [exact Hnone|split]|].
  { unfold observeStep. rewrite (Hout [] [] Hnone). reflexivity. }
  { unfold observeStep. rewrite (Hexec [testLogMiddleware "L1"] [] [] Hnone).
    reflexivity. }
  split.
  { rewrite (Hnest (appendStep "outer" (Some notFoundStep)) (appendStep "success" None)
               (HandleMultiFailure [DefaultBranch innerResult])
               (appendStep "inner" (Some testErrStep)) (appendStep "success" None)
               (HandleMultiFailure [DefaultBranch observeStep])
               [] [] notFoundStep ["outer"] ["outer"] testErrStep
               ["outer"; "inner"] ["outer"; "inner"]) by reflexivity.
    reflexivity. }
  split.
  { rewrite (Hsucc (appendStep "outer" (Some notFoundStep)) (appendStep "success" None)
               (HandleMultiFailure [DefaultBranch innerSuccessResult])
               (appendStep "inner" None)
               (Some (HandleMultiFailure [DefaultBranch (appendStep "innerFailure" None)]))
               [] [] notFoundStep ["outer"] ["outer"] ["outer"; "inner"])
      by reflexivity.
    reflexivity. }
  split.
  { rewrite (Htree observingPlan [] []). reflexivity. }
  rewrite (Htree_exec (PSeries (pcons observePlan pnil)) [testLogMiddleware "L1"] [] []
             Hnone).
  reflexivity.
Defined.

(** As stated, the claim on error-aware steps has the step see only an
    error of its nearest enclosing [Result].  Here that [Result] is
    [innerSuccessResult]: its main step returns nil, so it has no error;
    it runs as the failure step of an outer [Result] whose main step
    returned "not found", and this outer error is what the error-aware
    step is given. *)
Lemma inner_success_step_sees_outer_error :
  execWithContext [] (appendStep "outer" (Some notFoundStep)) mkTestState [] =
    (Some notFoundStep, ["outer"]) ∧
  execWithContext (resultErrToContext [] notFoundStep) (appendStep "inner" None)
    mkTestState ["outer"] = (None, ["outer"; "inner"]) ∧
  Error notFoundStep = "not found" ∧
  Exec (Result (appendStep "outer" (Some notFoundStep)) (appendStep "success" None)
          (Some (HandleMultiFailure [DefaultBranch innerSuccessResult])))
    [] mkTestState [] =
    (None, ["outer"; "inner"; "saw not found"]) ∧
  Exec (Result (appendStep "outer" (Some notFoundStep)) (appendStep "success" None)
          (Some (HandleMultiFailure [DefaultBranch innerSuccessResult])))
    [] mkTestState [] ≠
    (None, ["outer"; "inner"; "saw nil"]).
Proof. repeat split; try reflexivity. discriminate. Qed.

(** [If], [IfNot] and [IfElse] on steps that write their name: the buffer
    shows the predicate called once and which step ran, without a chain
    and inside the chain of [logChain]. *)
Lemma Conditional_runs_by_predicate_witness :
  (markedCondition true mkTestState [] = (true, ["condition"]) ∧
   Value (Mw:=interceptor testState buffer) [] middlewareKey = None ∧
   Exec (If (markedCondition true) (appendStep "then" (Some testErrStep)))
     [] mkTestState [] = (Some testErrStep, ["condition"; "then"]) ∧
   Exec (IfNot (markedCondition true) (appendStep "then" (Some testErrStep)))
     [] mkTestState [] = (None, ["condition"]) ∧
   Exec (IfElse (markedCondition true) (appendStep "then" (Some testErrStep))
           (appendStep "else" None))
     [] mkTestState [] = (Some testErrStep, ["condition"; "then"])) ∧
  (markedCondition false mkTestState [] = (false, ["condition"]) ∧
   Exec (If (markedCondition false) (appendStep "then" (Some testErrStep)))
     [] mkTestState [] = (None, ["condition"]) ∧
   Exec (IfNot (markedCondition false) (appendStep "then" (Some testErrStep)))
     [] mkTestState [] = (Some testErrStep, ["condition"; "then"]) ∧
   Exec (IfElse (markedCondition false) (appendStep "then" (Some testErrStep))
           (appendStep "else" None))
     [] mkTestState [] = (None, ["condition"; "else"])) ∧
  (Value (withMiddlewares [] logChain) middlewareKey = Some (chainValue logChain) ∧
   Exec (If (markedCondition true) (appendStep "then" None))
     (withMiddlewares [] logChain) mkTestState [] =
     (None,
      ["condition"; "L1: Starting step then"; "L2: Starting step then"; "then";
       "L2: then done"; "L1: then done"]) ∧
   Exec (IfElse (markedCondition false) (appendStep "then" None) (appendStep "else" None))
     (withMiddlewares [] logChain) mkTestState [] =
     (None,
      ["condition"; "L1: Starting step else"; "L2: Starting step else"; "else";
       "L2: else done"; "L1: else done"])).
Proof.
  assert (markedCondition true mkTestState [] = (true, ["condition"])) as Htrue
    by reflexivity.
  assert (markedCondition false mkTestState [] = (false, ["condition"])) as Hfalse
    by reflexivity.
  assert (Value (Mw:=interceptor testState buffer) [] middlewareKey = None) as Hbare
    by reflexivity.
  assert (Value (withMiddlewares [] logChain) middlewareKey = Some (chainValue logChain))
    as Hchain by reflexivity.
  destruct (proj1 (proj2 (Conditional_runs_by_predicate (markedCondition true)
                            (appendStep "then" (Some testErrStep)) (appendStep "else" None)
                            [] mkTestState []) true ["condition"] Htrue) Hbare)
    as (Hif & Hifnot & Hifelse).
  destruct (proj1 (proj2 (Conditional_runs_by_predicate (markedCondition false)
                            (appendStep "then" (Some testErrStep)) (appendStep "else" None)
                            [] mkTestState []) false ["condition"] Hfalse) Hbare)
    as (Hif' & Hifnot' & Hifelse').
  destruct (proj2 (proj2 (Conditional_runs_by_predicate (markedCondition true)
                            (appendStep "then" None) (appendStep "else" None)
                            (withMiddlewares [] logChain) mkTestState [])
                     true ["condition"] Htrue) logChain Hchain)
    as (Hin & _ & _).
  destruct (proj2 (proj2 (Conditional_runs_by_predicate (markedCondition false)
                            (appendStep "then" None) (appendStep "else" None)
                            (withMiddlewares [] logChain) mkTestState [])
                     false ["condition"] Hfalse) logChain Hchain)
    as (_ & _ & Hin').
  split; [|split].
  - split; [exact Htrue|]. split; [exact Hbare|].
    split; [exact Hif|]. split; [exact Hifnot|exact Hifelse].
  - split; [exact Hfalse|].
    split; [exact Hif'|]. split; [exact Hifnot'|exact Hifelse'].
  - split; [exact Hchain|]. split; [exact Hin|exact Hin'].
Defined.

(** [TestIf], [TestIfNot] and [TestIfElse]. *)
Example conditional_tests :
  let alwaysTrue : Selector testState buffer := λ _, ret true in
  let alwaysFalse : Selector testState buffer := λ _, ret false in
  Exec (If alwaysFalse (appendStep "step" None)) [] mkTestState [] = (None, []) ∧
  Exec (If alwaysTrue (appendStep "step" None)) [] mkTestState [] = (None, ["step"]) ∧
  Exec (IfNot alwaysTrue (appendStep "step" None)) [] mkTestState [] = (None, []) ∧
  Exec (IfNot alwaysFalse (appendStep "step" None)) [] mkTestState [] = (None, ["step"]) ∧
  Exec (IfElse alwaysTrue (appendStep "is" None) (appendStep "es" None))
    [] mkTestState [] = (None, ["is"]) ∧
  Exec (IfElse alwaysFalse (appendStep "is" None) (appendStep "es" None))
    [] mkTestState [] = (None, ["es"]).
Proof. repeat split. Qed.

(** A default branch listed before a branch whose selector matches: the
    default step runs and the selector is not called. *)
Example default_branch_listed_first_run :
  Exec (Result (appendStep "main" (Some testErrStep)) (appendStep "success" None)
          (Some (HandleMultiFailure
                   [DefaultBranch (appendStep "default" None);
                    NewBranch (selectIs testErrStep) (appendStep "branch" None)])))
    [] mkTestState [] = (None, ["main"; "default"]) ∧
  Exec (Result (appendStep "main" (Some testErrStep)) (appendStep "success" None)
          (Some (HandleMultiFailure
                   [NewBranch (selectIs testErrStep) (appendStep "branch" None);
                    DefaultBranch (appendStep "default" None)])))
    [] mkTestState [] = (None, ["main"; "selector step error"; "branch"]).
Proof. split; reflexivity. Qed.

(** [TestResult]: a [StepFunc] as failure handler selects itself. *)
Example TestResult_single_branch :
  Exec (Result (appendStep "ms" None) (appendStep "ss" None)
          (Some (StepFunc_selectStep (mkFunc "fs" (λ _ _ w, (None, w ++ ["fs"]))))))
    [] mkTestState [] = (None, ["ms"; "ss"]) ∧
  Exec (Result (appendStep "ms" (Some testErrStep)) (appendStep "ss" None)
          (Some (StepFunc_selectStep (mkFunc "fs" (λ _ _ w, (None, w ++ ["fs"]))))))
    [] mkTestState [] = (None, ["ms"; "fs"]).
Proof. split; reflexivity. Qed.

(** [TestMiddlewareChain_Wrap/Stacked]: [Wrap] puts the chain around the
    series only; run without an executor, the context carries no chain and
    the child runs bare. *)
Example TestMiddlewareChain_Wrap_Stacked :
  Exec (Wrap [testLogMiddleware "L1"; testLogMiddleware "L2"]
          (Series [appendStep "work" None]))
    [] mkTestState [] =
  (None,
   ["L1: Starting step dagger:seriesStep[testState]";
    "L2: Starting step dagger:seriesStep[testState]";
    "work";
    "L2: dagger:seriesStep[testState] done";
    "L1: dagger:seriesStep[testState] done"]).
Proof. reflexivity. Qed.

(** [TestExecutor_Use/Single]. *)
Example TestExecutor_Use_Single :
  Executor_Exec
    (Use (mkExecutor
            (Series [namedStep "dagger:TestExecutor_Use.func1" None;
                     namedStep "dagger:TestExecutor_Use.func3" None;
                     Result (namedStep "dagger:TestExecutor_Use.func2" None)
                       (namedStep "dagger:TestExecutor_Use.func3" None)
                       (Some (defaultBranch_selectStep
                                (namedStep "dagger:TestExecutor_Use.func4" None)))])
            [])
       [indentMiddleware])
    [] (mkUseState 0) [] =
  (None,
   ["dagger:seriesStep[useState]";
    tab +:+ "dagger:TestExecutor_Use.func1";
    tab +:+ "dagger:TestExecutor_Use.func3";
    tab +:+ "dagger:resultStep[useState]";
    tab +:+ tab +:+ "dagger:TestExecutor_Use.func2";
    tab +:+ tab +:+ "dagger:TestExecutor_Use.func3"]).
Proof. reflexivity. Qed.

(** [TestStepWithErr_Exec]: the error-aware step is the selected failure
    step; it is given the error of the main step and returns it.  The
    chain is applied to it twice, once by [execWithContext] under its type
    name and once by its own [Exec] with [CanSkip] set. *)
Example TestStepWithErr_Exec_Success :
  let ss : useStep :=
    NewResultErrStep (λ _ _ resErr w,
      (resErr, w ++ match resErr with Some _ => ["errCount++"] | None => [] end)) in
  Executor_Exec
    (Use (mkExecutor
            (Result (namedStep "dagger:TestStepWithErr_Exec.func1.2" (Some randomErr)) ss
               (Some (HandleMultiFailure [NewBranch (λ _ _, ret true) ss])))
            [])
       [skipMetaMiddleware])
    [] (mkUseState 0) [] =
  (Some randomErr,
   ["dagger:TestStepWithErr_Exec.func1.2";
    "dagger:stepWithErr[useState]";
    "errCount++"]).
Proof. reflexivity. Qed.

(** [Test_buildDAG]: the cycle error is found by [errors.As] under the
    [ErrInvalid] that [New] returns. *)
Example Test_buildDAG_cyclic :
  New "dummyState" unit two_loops 1%positive =
    Some (None, Some (ErrInvalid (ErrCycle "dagger:seriesStep[dummyState]"))) ∧
  errors_As_ErrCycle (ErrInvalid (ErrCycle "dagger:seriesStep[dummyState]")) =
    Some "dagger:seriesStep[dummyState]" ∧
  New "dummyState" unit plain_series 1%positive =
    Some (Some (mkExecutor 1%positive []), None).
Proof. repeat split. Qed.

(** * Further properties of the code *)

(** ** Validation *)

Lemma if_free_store_from h a : if_free_store h → if_free_from h a.
Proof.
  intros Hall b n _ Hb. specialize (Hall b n Hb). unfold single_unwrap in Hall.
  by destruct (Unwrap n).
Qed.

Lemma plain_series_closed : closed_from plain_series 1%positive.
Proof. apply closed_store; [by eexists | store_check]. Defined.

Lemma plain_series_if_free : if_free_from plain_series 1%positive.
Proof. apply if_free_store_from. store_check. Defined.

Lemma plain_series_acyclic t : ¬ tc (edge plain_series) t t.
Proof. apply (ranked_acyclic _ (λ a, 4 - Pos.to_nat a)). store_check. Defined.

(** X1: on a store without nil child the traversal ends, also when the
    graph has cycles, and [New] returns one of two things: the executor
    for the start step with an empty chain and no error, or no executor
    and an [ErrInvalid] around an [ErrCycle] naming a step that can be
    reached from the start step.  [errors.As] finds the [ErrCycle], and
    the message is that of the [ErrCycle]. *)
Theorem New_returns_executor_or_cycle_error (S_name : string) (Mw : Type)
    (h : gmap addr node) (root : addr) :
  closed_from h root →
  New S_name Mw h root = Some (Some (mkExecutor root []), None) ∨
  ∃ m nd, rtc (edge h) root m ∧ h !! m = Some nd ∧
    New S_name Mw h root =
      Some (None, Some (ErrInvalid (ErrCycle (nodeName S_name nd)))) ∧
    errors_As_ErrCycle (ErrInvalid (ErrCycle (nodeName S_name nd))) =
      Some (nodeName S_name nd) ∧
    Error (ErrInvalid (ErrCycle (nodeName S_name nd))) =
      "dagger: cycle detected at step '" +:+ nodeName S_name nd +:+ "'".
Proof.
  intros Hclosed. unfold New.
  pose proof (checkDAGCycles_fuel S_name h root) as Hfuel.
  destruct (checkDAGCycles S_name h root) as [V|e| |] eqn:E; [by left| | |done].
  - right. apply check_Failed_named in E as (m & nd & Hm & Hnd & -> & _).
    by exists m, nd.
  - apply check_NilStep in E as (t & Ht & Hnone).
    destruct (Hclosed t Ht) as [? ?]. congruence.
Qed.

Lemma New_returns_executor_or_cycle_error_witness :
  closed_from two_loops 1%positive ∧
  (New "S" unit two_loops 1%positive = Some (Some (mkExecutor 1%positive []), None) ∨
   ∃ m nd, rtc (edge two_loops) 1%positive m ∧ two_loops !! m = Some nd ∧
     New "S" unit two_loops 1%positive =
       Some (None, Some (ErrInvalid (ErrCycle (nodeName "S" nd)))) ∧
     errors_As_ErrCycle (ErrInvalid (ErrCycle (nodeName "S" nd))) =
       Some (nodeName "S" nd) ∧
     Error (ErrInvalid (ErrCycle (nodeName "S" nd))) =
       "dagger: cycle detected at step '" +:+ nodeName "S" nd +:+ "'").
Proof.
  split; [exact two_loops_closed|].
  exact (New_returns_executor_or_cycle_error "S" unit two_loops 1%positive
           two_loops_closed).
Defined.

(** X2: a graph that [New] accepts has no nil child and no cycle among
    the steps that can be reached from the start step, and the executor
    returned holds that start step and no middleware. *)
Theorem New_accepted_is_acyclic (S_name : string) (Mw : Type)
    (h : gmap addr node) (root : addr) (e : Executor addr Mw) :
  New S_name Mw h root = Some (Some e, None) →
  e = mkExecutor root [] ∧
  closed_from h root ∧
  ∀ t, rtc (edge h) root t → ¬ tc (edge h) t t.
Proof.
  unfold New. intros H.
  destruct (checkDAGCycles S_name h root) as [V|err| |] eqn:E; try done.
  injection H as <-. split; [done|]. split.
  - intros t Ht.
    destruct (check_Passed_reach _ _ _ _ _ _ _ E Ht) as (f & Vt & Vt' & _ & Hpass).
    by apply check_Passed in Hpass as (_ & _ & ?).
  - intros t Ht. by eapply check_Passed_acyclic.
Qed.

Lemma New_accepted_is_acyclic_witness :
  New "S" unit plain_series 1%positive = Some (Some (mkExecutor 1%positive []), None) ∧
  mkExecutor 1%positive [] = mkExecutor (Mw:=unit) 1%positive [] ∧
  closed_from plain_series 1%positive ∧
  ∀ t, rtc (edge plain_series) 1%positive t → ¬ tc (edge plain_series) t t.
Proof.
  split; [reflexivity|].
  exact (New_accepted_is_acyclic "S" unit plain_series 1%positive
           (mkExecutor 1%positive []) eq_refl).
Defined.

(** X3: for graphs without [ifStep] and without nil child, [New] decides
    acyclicity: it returns the executor exactly when no step that can be
    reached from the start step can be reached from itself.  A step used
    in several places is no obstacle. *)
Theorem New_decides_acyclicity_without_ifStep (S_name : string) (Mw : Type)
    (h : gmap addr node) (root : addr) :
  closed_from h root → if_free_from h root →
  (New S_name Mw h root = Some (Some (mkExecutor root []), None) ↔
   ∀ t, rtc (edge h) root t → ¬ tc (edge h) t t).
Proof.
  intros Hclosed Hfree. split.
  - unfold New. intros H t Ht.
    destruct (checkDAGCycles S_name h root) as [V|err| |] eqn:E; try done.
    by eapply check_Passed_acyclic.
  - by apply New_accepts_if_free_dag.
Qed.

Lemma New_decides_acyclicity_without_ifStep_witness :
  closed_from plain_series 1%positive ∧
  if_free_from plain_series 1%positive ∧
  (New "S" unit plain_series 1%positive = Some (Some (mkExecutor 1%positive []), None) ↔
   ∀ t, rtc (edge plain_series) 1%positive t → ¬ tc (edge plain_series) t t).
Proof.
  split; [exact plain_series_closed|]. split; [exact plain_series_if_free|].
  exact (New_decides_acyclicity_without_ifStep "S" unit plain_series 1%positive
           plain_series_closed plain_series_if_free).
Defined.

(** X4: [New] does not look at failure handlers: two stores that differ
    only in the failure handlers of their [resultStep]s get the same
    answer, whatever the handlers refer to. *)
Theorem New_ignores_failure_handlers (S_name : string) (Mw : Type)
    (h h' : gmap addr node) (root : addr) :
  dropHandler <$> h = dropHandler <$> h' →
  New S_name Mw h root = New S_name Mw h' root.
Proof.
  intros Heq.
  rewrite <- (New_dropHandler S_name Mw h), <- (New_dropHandler S_name Mw h').
  by rewrite Heq.
Qed.

Lemma New_ignores_failure_handlers_witness :
  dropHandler <$> handler_loop = dropHandler <$> handler_loop_multi ∧
  New "S" unit handler_loop 1%positive = New "S" unit handler_loop_multi 1%positive.
Proof.
  assert (dropHandler <$> handler_loop = dropHandler <$> handler_loop_multi) as Heq
    by reflexivity.
  split; [exact Heq|].
  exact (New_ignores_failure_handlers "S" unit _ _ 1%positive Heq).
Defined.

(** ** Sequences *)

Section SequenceFacts.

Context {S W Mw : Type} `{!StateType S} `{!middleware S W Mw}.

Implicit Types (ctx : context Mw) (state : S) (w : W).
Implicit Types (stp : Step S W Mw) (xs ys steps : list (Step S W Mw)).

Lemma run_each_app xs ys ctx state w :
  run_each (xs ++ ys) ctx state w =
  (let (rs1, w1) := run_each xs ctx state w in
   let (rs2, w2) := run_each ys ctx state w1 in
   (rs1 ++ rs2, w2)).
Proof.
  revert w. induction xs as [|x xs IH]; intros w; simpl.
  - unfold ret. by destruct (run_each ys ctx state w).
  - unfold bind, ret. destruct (execWithContext ctx x state w) as [r w0].
    rewrite IH. destruct (run_each xs ctx state w0) as [rs1 w1].
    by destruct (run_each ys ctx state w1).
Qed.

Lemma failures_app xs ys (rs1 rs2 : list (option error)) :
  length rs1 = length xs →
  failures (xs ++ ys) (rs1 ++ rs2) = failures xs rs1 ++ failures ys rs2.
Proof.
  revert rs1. induction xs as [|x xs IH]; intros [|[e|] rs1] Hlen; simpl in *;
    try done.
  - f_equal. apply IH. lia.
  - apply IH. lia.
Qed.

Lemma seriesStep_Exec_nil_run steps ctx state w w' :
  seriesStep_Exec steps ctx state w = (None, w') →
  ∃ rs, run_each steps ctx state w = (rs, w') ∧ Forall (eq None) rs.
Proof.
  revert w. induction steps as [|stp steps IH]; intros w H; simpl in *.
  - injection H as <-. by exists [].
  - unfold bind, ret in *.
    destruct (execWithContext ctx stp state w) as [[e|] w1]; [done|].
    destruct (IH _ H) as (rs & -> & Hall). exists (None :: rs). by split; [|constructor].
Qed.

(** X5: [Series] over two lists one after the other is [Series] over the
    first and, if that returns nil, [Series] over the second from the
    world it left; an error of the first part is the result and the second
    part does not run.  With no step at all [Series] returns nil and
    leaves the world alone. *)
Theorem Series_app xs ys ctx state w :
  Exec (Series (xs ++ ys)) ctx state w =
    (match Exec (Series xs) ctx state w with
     | (Some e, w1) => (Some e, w1)
     | (None, w1) => Exec (Series ys) ctx state w1
     end) ∧
  Exec (Series []) ctx state w = (None, w).
Proof.
  split; [|done]. simpl. revert w.
  induction xs as [|x xs IH]; intros w; simpl; [done|].
  unfold bind, ret. destruct (execWithContext ctx x state w) as [[e|] w0]; [done|].
  apply IH.
Qed.

(** X6: [Continue] returns nil exactly when [Series] over the same steps
    returns nil, and then both leave the same world: the two differ only
    once a step has failed. *)
Theorem Continue_nil_iff_Series_nil steps ctx state w w' :
  Exec (Continue steps) ctx state w = (None, w') ↔
  Exec (Series steps) ctx state w = (None, w').
Proof.
  simpl. unfold continueStep_Exec.
  destruct (run_each steps ctx state w) as [rs w1] eqn:Hrun.
  destruct (continueStep_loop_spec steps ctx state None w rs w1 Hrun)
    as (err & Hloop & _ & Hnone).
  rewrite Hloop. split.
  - intros H. injection H as -> <-.
    apply (seriesStep_Exec_all_nil _ _ _ _ _ _ Hrun). by apply Hnone.
  - intros H. apply seriesStep_Exec_nil_run in H as (rs' & Hrun' & Hall).
    rewrite Hrun in Hrun'. injection Hrun' as -> ->.
    f_equal. apply Hnone. by split.
Qed.

(** X7: [Continue] over two lists one after the other runs both parts in
    turn, and the failures it joins are those of the first part followed
    by those of the second. *)
Theorem Continue_app xs ys ctx state w e1 w1 e2 w2 :
  Exec (Continue xs) ctx state w = (e1, w1) →
  Exec (Continue ys) ctx state w1 = (e2, w2) →
  ∃ e, Exec (Continue (xs ++ ys)) ctx state w = (e, w2) ∧
    leaves_of e = leaves_of e1 ++ leaves_of e2 ∧
    (e = None ↔ e1 = None ∧ e2 = None).
Proof.
  simpl. unfold continueStep_Exec. intros H1 H2.
  destruct (run_each xs ctx state w) as [rs1 w1'] eqn:Hrun1.
  destruct (continueStep_loop_spec xs ctx state None w rs1 w1' Hrun1)
    as (err1 & Hloop1 & Hleaves1 & Hnone1).
  rewrite Hloop1 in H1. injection H1 as -> ->.
  destruct (run_each ys ctx state w1) as [rs2 w2'] eqn:Hrun2.
  destruct (continueStep_loop_spec ys ctx state None w1 rs2 w2' Hrun2)
    as (err2 & Hloop2 & Hleaves2 & Hnone2).
  rewrite Hloop2 in H2. injection H2 as -> ->.
  assert (run_each (xs ++ ys) ctx state w = (rs1 ++ rs2, w2)) as Hrun.
  { by rewrite run_each_app, Hrun1, Hrun2. }
  destruct (continueStep_loop_spec (xs ++ ys) ctx state None w _ _ Hrun)
    as (err & Hloop & Hleaves & Hnone).
  exists err. split; [done|]. simpl in *. split.
  - rewrite Hleaves, Hleaves1, Hleaves2. apply failures_app.
    by eapply run_each_length.
  - rewrite Hnone, Hnone1, Hnone2, Forall_app. naive_solver.
Qed.

End SequenceFacts.

Lemma Continue_app_witness :
  Exec (Continue [appendStep "s1" None; appendStep "s2" (Some testErrStep)])
    [] mkTestState [] =
    (Some (joinError [errorf_executing "s2" testErrStep]), ["s1"; "s2"]) ∧
  Exec (Continue [appendStep "s3" None; appendStep "s4" (Some notFoundStep)])
    [] mkTestState ["s1"; "s2"] =
    (Some (joinError [errorf_executing "s4" notFoundStep]), ["s1"; "s2"; "s3"; "s4"]) ∧
  ∃ e, Exec (Continue continueSteps) [] mkTestState [] = (e, ["s1"; "s2"; "s3"; "s4"]) ∧
    leaves_of e =
      [errorf_executing "s2" testErrStep] ++ [errorf_executing "s4" notFoundStep] ∧
    (e = None ↔
     Some (joinError [errorf_executing "s2" testErrStep]) = None ∧
     Some (joinError [errorf_executing "s4" notFoundStep]) = None).
Proof.
  split; [reflexivity|]. split; [reflexivity|].
  exact (Continue_app
           [appendStep "s1" None; appendStep "s2" (Some testErrStep)]
           [appendStep "s3" None; appendStep "s4" (Some notFoundStep)]
           [] mkTestState [] _ _ _ _ eq_refl eq_refl).
Defined.

(** ** The error of a best-effort sequence *)

Lemma string_app_assoc (a b c : string) : (a +:+ b) +:+ c = a +:+ b +:+ c.
Proof.
  induction a as [|x a IH]; [done|].
  change (String x ((a +:+ b) +:+ c) = String x (a +:+ b +:+ c)). by f_equal.
Qed.

Lemma concat_snoc (sep x : string) (l : list string) :
  l ≠ [] → String.concat sep (l ++ [x]) = String.concat sep l +:+ sep +:+ x.
Proof.
  induction l as [|y l IH]; intros Hne; [done|].
  destruct l as [|z l]; [done|].
  change (String.concat sep ((y :: z :: l) ++ [x]))
    with (y +:+ sep +:+ String.concat sep ((z :: l) ++ [x])).
  rewrite IH by done.
  change (String.concat sep (y :: z :: l))
    with (y +:+ sep +:+ String.concat sep (z :: l)).
  by rewrite !string_app_assoc.
Qed.

Lemma Error_join_pair (a x : error) :
  Error (joinError [a; x]) = Error a +:+ newline +:+ Error x.
Proof. reflexivity. Qed.

Section ContinueReport.

Context {S W Mw : Type} `{!StateType S} `{!middleware S W Mw}.

Implicit Types (ctx : context Mw) (state : S) (w : W).
Implicit Types (steps : list (Step S W Mw)).

Lemma continueStep_loop_report steps ctx state (acc : option error) w err w2 :
  continueStep_loop steps ctx state acc w = (err, w2) →
  (acc = None ∨
   ∃ es, acc = Some (joinError es) ∧ join_leaves (joinError es) ≠ [] ∧
     Error (joinError es) =
       String.concat newline (map Error (join_leaves (joinError es)))) →
  (err = None ∨
   ∃ es, err = Some (joinError es) ∧ join_leaves (joinError es) ≠ [] ∧
     Error (joinError es) =
       String.concat newline (map Error (join_leaves (joinError es)))).
Proof.
  revert acc w. induction steps as [|stp steps IH]; intros acc w H Hacc; simpl in H.
  - by injection H as <- _.
  - unfold bind in H.
    destruct (execWithContext ctx stp state w) as [[e|] w1]; [|by eapply IH].
    eapply IH; [exact H|]. right.
    destruct Hacc as [->|(es & -> & Hne & Hmsg)].
    + exists [errorf_executing (StepName stp) e]. done.
    + exists [joinError es; errorf_executing (StepName stp) e].
      split; [done|]. split.
      * simpl. simpl in Hne. by destruct (flat_map join_leaves es).
      * rewrite Error_join_pair, Hmsg.
        change (join_leaves (joinError [joinError es; errorf_executing (StepName stp) e]))
          with (join_leaves (joinError es) ++ [errorf_executing (StepName stp) e]).
        rewrite map_app.
        change (map Error [errorf_executing (StepName stp) e])
          with [Error (errorf_executing (StepName stp) e)].
        rewrite concat_snoc; [done|].
        by destruct (join_leaves (joinError es)).
Qed.

(** X8: an error returned by [Continue] is never the error of a child
    itself: it is a value made by [errors.Join], also when a single child
    failed, and its message has one line per failure, in the order of the
    children, each reading [error executing step NAME: MESSAGE]. *)
Theorem Continue_error_is_joined_report steps ctx state w rs w' err :
  run_each steps ctx state w = (rs, w') →
  Exec (Continue steps) ctx state w = (Some err, w') →
  (∃ es, err = joinError es ∧ es ≠ []) ∧
  Error err = String.concat newline (map Error (failures steps rs)) ∧
  (∀ name e, Error (errorf_executing name e) =
             "error executing step " +:+ name +:+ ": " +:+ Error e).
Proof.
  intros Hrun Hexec.
  destruct (continueStep_loop_spec steps ctx state None w rs w' Hrun)
    as (err' & Hloop & Hleaves & _).
  simpl in Hexec. unfold continueStep_Exec in Hexec.
  rewrite Hloop in Hexec. injection Hexec as ->.
  destruct (continueStep_loop_report _ _ _ _ _ _ _ Hloop (or_introl eq_refl))
    as [?|(es & Heq & Hne & Hmsg)]; [done|].
  injection Heq as ->. simpl in Hleaves. split; [|split; [|done]].
  - exists es. split; [done|]. intros ->. done.
  - by rewrite Hmsg, <- Hleaves.
Qed.

End ContinueReport.

Lemma Continue_error_is_joined_report_witness :
  run_each continueSteps [] mkTestState [] =
    (continueOutcomes, ["s1"; "s2"; "s3"; "s4"]) ∧
  Exec (Continue continueSteps) [] mkTestState [] =
    (Some (joinError [joinError [errorf_executing "s2" testErrStep];
                      errorf_executing "s4" notFoundStep]),
     ["s1"; "s2"; "s3"; "s4"]) ∧
  Error (joinError [joinError [errorf_executing "s2" testErrStep];
                    errorf_executing "s4" notFoundStep]) =
    "error executing step s2: step error" +:+ newline +:+
    "error executing step s4: not found".
Proof.
  assert (run_each continueSteps [] mkTestState [] =
            (continueOutcomes, ["s1"; "s2"; "s3"; "s4"])) as Hrun by reflexivity.
  assert (Exec (Continue continueSteps) [] mkTestState [] =
            (Some (joinError [joinError [errorf_executing "s2" testErrStep];
                              errorf_executing "s4" notFoundStep]),
             ["s1"; "s2"; "s3"; "s4"])) as Hexec by reflexivity.
  split; [exact Hrun|]. split; [exact Hexec|].
  destruct (Continue_error_is_joined_report continueSteps [] mkTestState []
              continueOutcomes _ _ Hrun Hexec) as (_ & -> & _).
  reflexivity.
Defined.

(** ** Result and its failure handlers *)

Section HandlerFacts.

Context {S W Mw : Type} `{!StateType S} `{!middleware S W Mw}.

Implicit Types (ctx : context Mw) (state : S) (w : W) (err : error).
Implicit Types (stp mainStep successStep : Step S W Mw).

(** X9: a [Result] without failure handler, or with a
    [HandleMultiFailure] of no branch, does what [Series] of the main and
    the success step does: the error of the main step comes back
    unchanged and the success step runs only after a main step that
    returned nil. *)
Theorem Result_without_handler_is_Series mainStep successStep ctx state w :
  Exec (Result mainStep successStep None) ctx state w =
    Exec (Series [mainStep; successStep]) ctx state w ∧
  Exec (Result mainStep successStep (Some (HandleMultiFailure []))) ctx state w =
    Exec (Series [mainStep; successStep]) ctx state w.
Proof.
  simpl. unfold resultStep_Exec, handleErr, bind, ret. simpl.
  destruct (execWithContext ctx mainStep state w) as [[e|] w1]; [done|].
  by destruct (execWithContext ctx successStep state w1) as [[e|] w2].
Qed.

(** X10: the three ways to give one unconditional failure step, a
    [StepFunc] passed as handler, a [DefaultBranch] and a
    [HandleMultiFailure] of that [DefaultBranch] alone, make the same
    [Result]; with any of them a failure of the main step never comes
    back as such: the outcome is that of the failure step, run with the
    error in its context. *)
Theorem unconditional_failure_step (f : func (context Mw → S → M W (option error)))
    mainStep successStep ctx state w :
  Exec (Result mainStep successStep (Some (StepFunc_selectStep f))) ctx state w =
    Exec (Result mainStep successStep (Some (defaultBranch_selectStep (NewStep f))))
      ctx state w ∧
  Exec (Result mainStep successStep
          (Some (HandleMultiFailure [DefaultBranch (NewStep f)]))) ctx state w =
    Exec (Result mainStep successStep (Some (defaultBranch_selectStep (NewStep f))))
      ctx state w ∧
  (∀ err w1, execWithContext ctx mainStep state w = (Some err, w1) →
     Exec (Result mainStep successStep (Some (StepFunc_selectStep f))) ctx state w =
       execWithContext (resultErrToContext ctx err) (NewStep f) state w1).
Proof.
  simpl. unfold resultStep_Exec, handleErr, bind, ret. simpl.
  split; [done|]. split; [done|]. intros err w1 Hmain. by rewrite Hmain.
Qed.

Lemma HandleMultiFailure_app_default
    (branches : list (FailureSelector W Mw * Step S W Mw)) defaultStep ctx err w :
  selectStep (HandleMultiFailure (map toBranch branches ++ [DefaultBranch defaultStep]))
    ctx err w =
  (let (r, w') := first_eligible branches ctx err w in
   (Some (default defaultStep r), w')).
Proof.
  revert w. induction branches as [|[selector stp] branches IH]; intros w; [done|].
  specialize (IH (selector ctx err w).2). simpl in *. unfold bind, ret in *.
  destruct (selector ctx err w) as [[|] w1]; [done|]. exact IH.
Qed.

Lemma HandleMultiFailure_no_default
    (branches : list (FailureSelector W Mw * Step S W Mw)) ctx err w :
  selectStep (HandleMultiFailure (map toBranch branches)) ctx err w =
  first_eligible branches ctx err w.
Proof.
  revert w. induction branches as [|[selector stp] branches IH]; intros w; [done|].
  specialize (IH (selector ctx err w).2). simpl in *. unfold bind, ret in *.
  destruct (selector ctx err w) as [[|] w1]; [done|]. exact IH.
Qed.

(** X11: with the default branch passed last, [HandleMultiFailure] selects
    as its doc comment says: the step of the first branch whose selector
    holds, the selectors being called in order up to that one, and the
    default step if none holds.  Without default branch it selects the
    same first step, or none.  A [Result] with a default branch last
    therefore never returns the error of its main step. *)
Theorem HandleMultiFailure_default_last
    (branches : list (FailureSelector W Mw * Step S W Mw)) defaultStep ctx err w :
  selectStep (HandleMultiFailure (map toBranch branches ++ [DefaultBranch defaultStep]))
    ctx err w =
    (Some (default defaultStep (first_eligible branches ctx err w).1),
     (first_eligible branches ctx err w).2) ∧
  selectStep (HandleMultiFailure (map toBranch branches)) ctx err w =
    first_eligible branches ctx err w ∧
  (∀ mainStep successStep state w0,
     execWithContext ctx mainStep state w0 = (Some err, w) →
     Exec (Result mainStep successStep
             (Some (HandleMultiFailure
                      (map toBranch branches ++ [DefaultBranch defaultStep]))))
       ctx state w0 =
     execWithContext (resultErrToContext ctx err)
       (default defaultStep (first_eligible branches ctx err w).1) state
       (first_eligible branches ctx err w).2).
Proof.
  split; [|split].
  - rewrite HandleMultiFailure_app_default.
    by destruct (first_eligible branches ctx err w).
  - apply HandleMultiFailure_no_default.
  - intros mainStep successStep state w0 Hmain.
    cbn [Exec Result]. unfold resultStep_Exec, handleErr, bind.
    rewrite Hmain, HandleMultiFailure_app_default.
    by destruct (first_eligible branches ctx err w).
Qed.

End HandlerFacts.

(** [TestResult/FailureMultipleBranch]: the runs [Branch2] and
    [DefaultBranch]. *)
Lemma HandleMultiFailure_default_last_witness :
  execWithContext [] (appendStep "ms" (Some notFoundStep)) mkTestState [] =
    (Some notFoundStep, ["ms"]) ∧
  Exec (Result (appendStep "ms" (Some notFoundStep)) (appendStep "ss" None)
          (Some (HandleMultiFailure
                   (map toBranch [(selectIs testErrStep, appendStep "fs1" None);
                                  (selectIs notFoundStep, appendStep "fs2" None)]
                    ++ [DefaultBranch (appendStep "ds" None)]))))
    [] mkTestState [] =
    (None, ["ms"; "selector step error"; "selector not found"; "fs2"]) ∧
  Exec (Result (appendStep "ms" (Some randomErr)) (appendStep "ss" None)
          (Some (HandleMultiFailure
                   (map toBranch [(selectIs testErrStep, appendStep "fs1" None);
                                  (selectIs notFoundStep, appendStep "fs2" None)]
                    ++ [DefaultBranch (appendStep "ds" None)]))))
    [] mkTestState [] =
    (None, ["ms"; "selector step error"; "selector not found"; "ds"]).
Proof.
  assert (execWithContext [] (appendStep "ms" (Some notFoundStep)) mkTestState [] =
            (Some notFoundStep, ["ms"])) as Hmain by reflexivity.
  split; [exact Hmain|]. split.
  - rewrite (proj2 (proj2 (HandleMultiFailure_default_last
               [(selectIs testErrStep, appendStep "fs1" None);
                (selectIs notFoundStep, appendStep "fs2" None)]
               (appendStep "ds" None) [] notFoundStep ["ms"]))
               _ _ mkTestState [] Hmain).
    reflexivity.
  - rewrite (proj2 (proj2 (HandleMultiFailure_default_last
               [(selectIs testErrStep, appendStep "fs1" None);
                (selectIs notFoundStep, appendStep "fs2" None)]
               (appendStep "ds" None) [] randomErr ["ms"]))
               (appendStep "ms" (Some randomErr)) _ mkTestState [] eq_refl).
    reflexivity.
Defined.

Lemma unconditional_failure_step_witness :
  execWithContext [] (appendStep "ms" (Some testErrStep)) mkTestState [] =
    (Some testErrStep, ["ms"]) ∧
  Exec (Result (appendStep "ms" (Some testErrStep)) (appendStep "ss" None)
          (Some (StepFunc_selectStep (mkFunc "fs" (λ _ _ w, (None, w ++ ["fs"]))))))
    [] mkTestState [] = (None, ["ms"; "fs"]).
Proof.
  assert (execWithContext [] (appendStep "ms" (Some testErrStep)) mkTestState [] =
            (Some testErrStep, ["ms"])) as Hmain by reflexivity.
  split; [exact Hmain|].
  rewrite (proj2 (proj2 (unconditional_failure_step
             (mkFunc "fs" (λ _ _ w, (None, w ++ ["fs"])))
             (appendStep "ms" (Some testErrStep)) (appendStep "ss" None)
             [] mkTestState [])) testErrStep ["ms"] Hmain).
  reflexivity.
Defined.

(** ** Chains *)

Section ChainFacts.

Context {S W Mw : Type} `{!middleware S W Mw}.

Implicit Types (ctx : context Mw) (state : S) (w : W).
Implicit Types (a b chain : list Mw) (next stp : Step S W Mw).

(** X12: applying two chains one after the other in a single chain nests
    them: the steps made by the first chain are around those made by the
    second.  [Use] called twice registers what one call with both lists
    registers, so the middlewares of an earlier call are the outer ones;
    [Use] with no middleware changes nothing. *)
Theorem chains_compose a b next info (e : Executor (Step S W Mw) Mw) :
  MiddlewareChain_apply (a ++ b) next info =
    MiddlewareChain_apply a (MiddlewareChain_apply b next info) info ∧
  MiddlewareChain_apply [] next info = next ∧
  Use (Use e a) b = Use e (a ++ b) ∧
  Use e [] = e.
Proof.
  split; [|split; [done|split]].
  - by rewrite !MiddlewareChain_apply_foldr, foldr_app.
  - unfold Use. simpl. by rewrite fold_left_app.
  - by destruct e.
Qed.

End ChainFacts.

Section WrapFacts.

Context {S W : Type} `{!StateType S}.

Implicit Types (ctx : context (interceptor S W)) (state : S) (w : W).

(** X13: [Wrap] puts the chain around the step it is given and nowhere
    else: run with a context that carries no chain, the children of the
    wrapped [Series] run bare, where under an executor with the same
    chain every child is run inside the chain as well. *)
Theorem Wrap_is_not_Use (chain : list (interceptor S W))
    (steps : list (Step S W (interceptor S W))) ctx state w :
  Value ctx middlewareKey = None →
  Exec (Wrap chain (Series steps)) ctx state w =
    around chain (stepInfo (Series steps))
      (λ st, foldr (λ stp rest,
                      do r <- Exec stp ctx st;
                      match r with Some e => ret (Some e) | None => rest end)
                   (ret None) steps)
      state w ∧
  Executor_Exec (Use (mkExecutor (Series steps) []) chain) ctx state w =
    around chain (stepInfo (Series steps))
      (λ st, foldr (λ stp rest,
                      do r <- around chain (stepInfo stp)
                                (Exec stp (withMiddlewares ctx chain)) st;
                      match r with Some e => ret (Some e) | None => rest end)
                   (ret None) steps)
      state w.
Proof.
  intros Hbare. split.
  - unfold Wrap. rewrite apply_around. apply around_ext. intros st w0.
    change (Exec (Series steps) ctx st w0) with (seriesStep_Exec steps ctx st w0).
    revert w0. induction steps as [|stp steps IH]; intros w0; [done|].
    cbn [seriesStep_Exec foldr]. unfold bind.
    rewrite execWithContext_bare by done.
    destruct (Exec stp ctx st w0) as [[e|] w1]; [done|]. apply IH.
  - unfold Executor_Exec.
    destruct (Use_middlewares (mkExecutor (Series steps) []) chain) as [-> ->].
    cbn [start middlewares app]. rewrite apply_around. apply around_ext. intros st w0.
    change (Exec (Series steps) (withMiddlewares ctx chain) st w0)
      with (seriesStep_Exec steps (withMiddlewares ctx chain) st w0).
    revert w0. induction steps as [|stp steps IH]; intros w0; [done|].
    cbn [seriesStep_Exec foldr]. unfold bind.
    rewrite execWithContext_around.
    change (chain_of (withMiddlewares ctx chain)) with chain.
    destruct (around chain (stepInfo stp) (Exec stp (withMiddlewares ctx chain)) st w0)
      as [[e|] w1]; [done|]. apply IH.
Qed.

End WrapFacts.

Lemma Wrap_is_not_Use_witness :
  Value (Mw:=interceptor testState buffer) [] middlewareKey = None ∧
  Exec (Wrap logChain (Series [appendStep "work" None])) [] mkTestState [] =
    (None,
     ["L1: Starting step dagger:seriesStep[testState]";
      "L2: Starting step dagger:seriesStep[testState]";
      "work";
      "L2: dagger:seriesStep[testState] done";
      "L1: dagger:seriesStep[testState] done"]) ∧
  Executor_Exec (Use (mkExecutor (Series [appendStep "work" None]) []) logChain)
    [] mkTestState [] =
    (None,
     ["L1: Starting step dagger:seriesStep[testState]";
      "L2: Starting step dagger:seriesStep[testState]";
      "L1: Starting step work";
      "L2: Starting step work";
      "work";
      "L2: work done";
      "L1: work done";
      "L2: dagger:seriesStep[testState] done";
      "L1: dagger:seriesStep[testState] done"]).
Proof.
  destruct (Wrap_is_not_Use logChain [appendStep "work" None] [] mkTestState []
              eq_refl) as [-> ->].
  split; [reflexivity|]. split; reflexivity.
Defined.

(** ** Conditionals *)

Section ConditionalFacts.

Context {S W Mw : Type} `{!StateType S} `{!middleware S W Mw}.

Implicit Types (ctx : context Mw) (state : S) (w : W).
Implicit Types (thenStep elseStep : Step S W Mw).

(** X14: [IfNot] of a negated predicate is [If] of the predicate.  For a
    predicate that only reads the state, and in a context without chain,
    [IfElse] does what [Series] of [If] with the then step and [IfNot]
    with the else step does. *)
Theorem conditional_laws (condition : Selector S W) thenStep elseStep ctx state w :
  Exec (IfNot (λ st, do b <- condition st; ret (negb b)) thenStep) ctx state w =
    Exec (If condition thenStep) ctx state w ∧
  (pure_selector condition → Value ctx middlewareKey = None →
   Exec (IfElse condition thenStep elseStep) ctx state w =
     Exec (Series [If condition thenStep; IfNot condition elseStep]) ctx state w).
Proof.
  split.
  - simpl. unfold ifStep_Exec, bind, ret.
    by destruct (condition state w) as [[|] w1].
  - intros [p Hp] Hbare.
    cbn [Exec IfElse Series IfNot If seriesStep_Exec].
    unfold ifElseStep_Exec, bind, ret.
    rewrite !(execWithContext_bare ctx _ _ Hbare).
    cbn [Exec If]. unfold ifStep_Exec, bind, ret.
    rewrite !(execWithContext_bare ctx _ _ Hbare), Hp.
    destruct (p state) eqn:Hb.
    + destruct (Exec thenStep ctx state w) as [[e|] w1]; [done|].
      cbn [Exec IfNot If]. unfold ifStep_Exec, bind, ret. by rewrite Hp, Hb.
    + cbn [Exec IfNot If]. unfold ifStep_Exec, bind, ret. rewrite Hp, Hb. cbn [negb].
      rewrite (execWithContext_bare ctx _ _ Hbare).
      by destruct (Exec elseStep ctx state w) as [[e|] w1].
Qed.

End ConditionalFacts.

Lemma conditional_laws_witness :
  pure_selector isIndented ∧
  Value (Mw:=interceptor useState buffer) [] middlewareKey = None ∧
  Exec (IfElse isIndented (namedStep "then" None) (namedStep "else" (Some randomErr)))
    [] (mkUseState 0) [] =
  Exec (Series [If isIndented (namedStep "then" None);
                IfNot isIndented (namedStep "else" (Some randomErr))])
    [] (mkUseState 0) [].
Proof.
  assert (pure_selector isIndented) as Hpure
    by (exists (λ st, bool_decide (0 < indent st)); reflexivity).
  split; [exact Hpure|]. split; [reflexivity|].
  exact (proj2 (conditional_laws isIndented (namedStep "then" None)
                  (namedStep "else" (Some randomErr)) [] (mkUseState 0) [])
           Hpure eq_refl).
Defined.

(** ** Display names *)

Lemma append_cons c (a b : string) : String c a +:+ b = String c (a +:+ b).
Proof. reflexivity. Qed.

Lemma length_append (a b : string) :
  String.length (a +:+ b) = String.length a + String.length b.
Proof.
  induction a as [|c a IH]; [done|]. rewrite append_cons. simpl. by rewrite IH.
Qed.

Lemma substring_all (s : string) : String.substring 0 (String.length s) s = s.
Proof. induction s as [|c s IH]; [done|]. simpl. by rewrite IH. Qed.

Lemma substring_prefix (a b : string) :
  String.substring 0 (String.length a) (a +:+ b) = a.
Proof.
  induction a as [|c a IH]; [by destruct b|]. rewrite append_cons. simpl. by rewrite IH.
Qed.

Lemma substring_skip (a b : string) n m :
  String.substring (String.length a + n) m (a +:+ b) = String.substring n m b.
Proof. induction a as [|c a IH]; [done|]. rewrite append_cons. simpl. exact IH. Qed.

Lemma LastIndex_after_slash (modl pkg : string) :
  namer.LastIndex pkg "/" = (-1)%Z →
  namer.LastIndex (modl +:+ "/" +:+ pkg) "/" = Z.of_nat (String.length modl).
Proof.
  intros Hpkg. induction modl as [|c modl IH].
  - change ("" +:+ "/" +:+ pkg) with (String (Ascii.ascii_of_nat 47) pkg).
    cbn [namer.LastIndex]. rewrite Hpkg.
    change (0 <=? -1)%Z with false. cbv iota. cbn [String.prefix].
    destruct (Ascii.ascii_dec _ _) as [_|Hne]; [by destruct pkg | by destruct Hne].
  - rewrite append_cons. cbn [namer.LastIndex]. rewrite IH.
    destruct (0 <=? Z.of_nat (String.length modl))%Z eqn:E; [simpl; lia|].
    apply Z.leb_gt in E. lia.
Qed.

Lemma LastIndex_slash_spec (pp : string) :
  namer.LastIndex pp "/" = (-1)%Z ∨
  ∃ pre post, pp = pre +:+ "/" +:+ post ∧ namer.LastIndex post "/" = (-1)%Z.
Proof.
  induction pp as [|c pp IH]; [by left|].
  destruct IH as [Hnone|(pre & post & -> & Hpost)].
  - cbn [namer.LastIndex]. rewrite Hnone.
    change (0 <=? -1)%Z with false. cbn [String.prefix].
    destruct (Ascii.ascii_dec _ c) as [<-|Hne]; [|by left].
    right. by exists "", pp.
  - right. exists (String c pre), post. by rewrite append_cons.
Qed.

Lemma Module_Package_of_split (pre post name : string) :
  namer.LastIndex post "/" = (-1)%Z →
  namer.Module (pre +:+ "/" +:+ post, name) = pre ∧
  namer.Package (pre +:+ "/" +:+ post, name) = post.
Proof.
  intros Hpost. unfold namer.Module, namer.Package, namer.PackagePath. cbn [fst].
  rewrite (LastIndex_after_slash pre post Hpost).
  destruct (decide (Z.of_nat (String.length pre) = (-1)%Z)) as [?|_]; [lia|].
  unfold namer.slice_to, namer.slice_from. split.
  - rewrite Nat2Z.id. apply substring_prefix.
  - replace (Z.to_nat (Z.of_nat (String.length pre) + 1)) with (String.length pre + 1)
      by lia.
    rewrite substring_skip, length_append.
    change (String.length ("/" +:+ post)) with (Datatypes.S (String.length post)).
    replace (String.length pre + Datatypes.S (String.length post) - (String.length pre + 1))
      with (String.length post) by lia.
    change ("/" +:+ post) with (String (Ascii.ascii_of_nat 47) post). simpl. apply substring_all.
Qed.

(** X15: [Module] and [Package] cut the package path at its last slash: a
    path without slash is all package and has no module; otherwise module,
    slash and package give the path back.  The package never contains a
    slash. *)
Theorem ScopedName_splits_package_path (s : namer.ScopedName) :
  namer.LastIndex (namer.Package s) "/" = (-1)%Z ∧
  (if decide (namer.LastIndex (namer.PackagePath s) "/" = (-1)%Z)
   then namer.Module s = "" ∧ namer.Package s = namer.PackagePath s
   else namer.Module s +:+ "/" +:+ namer.Package s = namer.PackagePath s).
Proof.
  destruct s as [pp name].
  destruct (LastIndex_slash_spec pp) as [Hnone|(pre & post & -> & Hpost)].
  - unfold namer.Module, namer.Package, namer.PackagePath. cbn [fst].
    rewrite !decide_True by done. done.
  - destruct (Module_Package_of_split pre post name Hpost) as [HM HP].
    rewrite HM, HP. split; [done|]. unfold namer.PackagePath. cbn [fst].
    rewrite (LastIndex_after_slash pre post Hpost).
    rewrite decide_False by lia. done.
Qed.

Lemma Module_Package_fmt (modl pkg name : string) :
  namer.LastIndex pkg "/" = (-1)%Z →
  namer.Module (namer.fmtPkgPath modl pkg, name) = modl ∧
  namer.Package (namer.fmtPkgPath modl pkg, name) = pkg.
Proof.
  intros Hpkg. unfold namer.fmtPkgPath.
  destruct (decide (modl = "" ∧ pkg = "")) as [[-> ->]|Hne]; [done|].
  destruct (decide (modl = "")) as [->|Hmod].
  - unfold namer.Module, namer.Package, namer.PackagePath. cbn [fst].
    by rewrite !decide_True by done.
  - by apply Module_Package_of_split.
Qed.

(** X16: [fmtPkgPath] and the two accessors undo each other: for a package
    name without slash, the path made from a module and the package has
    that module and that package, also when the module, or both, are
    empty. *)
Theorem fmtPkgPath_round_trip (modl pkg name : string) :
  namer.LastIndex pkg "/" = (-1)%Z →
  namer.Module (namer.fmtPkgPath modl pkg, name) = modl ∧
  namer.Package (namer.fmtPkgPath modl pkg, name) = pkg.
Proof.
  intros Hpkg. unfold namer.fmtPkgPath.
  destruct (decide (modl = "" ∧ pkg = "")) as [[-> ->]|Hne]; [done|].
  destruct (decide (modl = "")) as [->|Hmod].
  - unfold namer.Module, namer.Package, namer.PackagePath. cbn [fst].
    by rewrite !decide_True by done.
  - by apply Module_Package_of_split.
Qed.

(** [ExampleScopedName_Module] and [ExampleScopedName_Package]. *)
Lemma fmtPkgPath_round_trip_witness :
  namer.LastIndex "dagger_test" "/" = (-1)%Z ∧
  namer.fmtPkgPath "github.com/ajatprabha" "dagger_test" =
    "github.com/ajatprabha/dagger_test" ∧
  namer.Module (namer.fmtPkgPath "github.com/ajatprabha" "dagger_test", "exampleStepFunc") =
    "github.com/ajatprabha" ∧
  namer.Package (namer.fmtPkgPath "github.com/ajatprabha" "dagger_test", "exampleStepFunc") =
    "dagger_test".
Proof.
  split; [reflexivity|]. split; [reflexivity|].
  exact (fmtPkgPath_round_trip "github.com/ajatprabha" "dagger_test" "exampleStepFunc"
           eq_refl).
Defined.

(** X17: what [String] prints.  A scoped name prints as package, colon
    and name, or as the name alone when the package is empty; a generic
    scoped name adds the name of the type argument in brackets.  For the
    step structs of this package, whatever the module part of its path,
    that is the identifier [stepTypeName] gives, which cycle errors and
    interceptors see. *)
Theorem display_name_format (modl pkg struct name tpath S_name : string) :
  namer.LastIndex pkg "/" = (-1)%Z →
  namer.ScopedName_String (namer.fmtPkgPath modl pkg, name) =
    (if decide (pkg = "") then name else pkg +:+ ":" +:+ name) ∧
  namer.GenericScopedName_String
    ((namer.fmtPkgPath modl pkg, struct), (tpath, S_name)) =
    namer.ScopedName_String (namer.fmtPkgPath modl pkg, struct)
      +:+ "[" +:+ S_name +:+ "]" ∧
  namer.GenericScopedName_String
    ((namer.fmtPkgPath modl "dagger", struct), (tpath, S_name)) =
    stepTypeName S_name struct.
Proof.
  intros Hpkg. split; [|split; [done|]].
  - unfold namer.ScopedName_String.
    destruct (Module_Package_fmt modl pkg name Hpkg) as [_ ->]. done.
  - unfold namer.GenericScopedName_String, namer.ScopedName_String. cbn [fst snd].
    destruct (Module_Package_fmt modl "dagger" struct eq_refl) as [_ ->].
    rewrite decide_False by done. unfold stepTypeName, namer.Name. cbn [snd].
    by rewrite !string_app_assoc.
Qed.

Lemma display_name_format_witness :
  namer.LastIndex "dagger_test" "/" = (-1)%Z ∧
  namer.ScopedName_String
    (namer.fmtPkgPath "github.com/ajatprabha" "dagger_test", "exampleStepFunc") =
    "dagger_test:exampleStepFunc" ∧
  namer.GenericScopedName_String
    ((namer.fmtPkgPath "github.com/ajatprabha" "dagger_test", "exampleTypedStep"),
     ("github.com/ajatprabha/dagger_test", "exampleState")) =
    "dagger_test:exampleTypedStep[exampleState]" ∧
  namer.GenericScopedName_String
    ((namer.fmtPkgPath "github.com/ajatprabha" "dagger", "resultStep"),
     ("github.com/ajatprabha/dagger", "dummyState")) =
    "dagger:resultStep[dummyState]".
Proof.
  destruct (display_name_format "github.com/ajatprabha" "dagger_test"
              "exampleTypedStep" "exampleStepFunc" "github.com/ajatprabha/dagger_test"
              "exampleState" eq_refl) as (H1 & H2 & _).
  destruct (display_name_format "github.com/ajatprabha" "dagger_test"
              "resultStep" "x" "github.com/ajatprabha/dagger"
              "dummyState" eq_refl) as (_ & _ & H3).
  split; [reflexivity|]. split; [rewrite H1; reflexivity|].
  split; [rewrite H2; reflexivity|]. rewrite H3. reflexivity.
Defined.

(** ** The traversal and the rest of the store *)

Section TraversalFacts.

Variable S_name : string.
Variable Mw : Type.

Local Abbreviation check := (checkDAGRecursive S_name).

Implicit Types (h : gmap addr node) (V : gset addr) (s t : addr).

Lemma checkChildren_ext_in (rec rec' : addr → gset addr → checked) cs V :
  (∀ c X, c ∈ cs → rec' c X = rec c X) →
  checkChildren rec' cs V = checkChildren rec cs V.
Proof.
  revert V. induction cs as [|c cs IH]; intros V Hext; simpl; [done|].
  rewrite Hext by left. destruct (rec c V); try done.
  apply IH. intros c0 X Hc0. apply Hext. by right.
Qed.

Lemma check_agree fuel h h' s V :
  (∀ t, rtc (edge h) s t → h' !! t = h !! t) →
  check fuel h' s V = check fuel h s V.
Proof.
  revert s V. induction fuel as [|fuel IH]; intros s V Hagree; simpl; [done|].
  rewrite (Hagree s) by done. destruct (h !! s) as [n|] eqn:Hs; [|done].
  destruct (decide (s ∈ V)); [done|].
  assert (∀ c, c ∈ unwrap_list n → ∀ t, rtc (edge h) c t → h' !! t = h !! t) as Hchild.
  { intros c Hc t Ht. apply Hagree. eapply rtc_l; [|done]. by exists n. }
  unfold unwrap_list in Hchild. destruct (Unwrap n) as [|c|cs]; [done|..].
  - apply IH, Hchild. left.
  - rewrite (checkChildren_ext_in (check fuel h) (check fuel h')); [done|].
    intros c X Hc. by apply IH, Hchild.
Qed.

Lemma checkChildren_more_fuel (rec rec' : addr → gset addr → checked) cs V :
  (∀ c X, rec c X ≠ OutOfFuel → rec' c X = rec c X) →
  checkChildren rec cs V ≠ OutOfFuel →
  checkChildren rec' cs V = checkChildren rec cs V.
Proof.
  intros Hmore. revert V. induction cs as [|c cs IH]; intros V H; simpl in *; [done|].
  destruct (rec c V) as [V1| | |] eqn:E; [| | |done].
  - rewrite Hmore, E by congruence. by apply IH.
  - by rewrite Hmore, E by congruence.
  - by rewrite Hmore, E by congruence.
Qed.

Lemma check_more_fuel fuel k h s V :
  check fuel h s V ≠ OutOfFuel → check (fuel + k) h s V = check fuel h s V.
Proof.
  revert s V. induction fuel as [|fuel IH]; intros s V H; simpl in *; [done|].
  destruct (h !! s) as [n|]; [|done].
  destruct (decide (s ∈ V)); [done|].
  destruct (Unwrap n) as [|c|cs]; [done|by apply IH|].
  rewrite (checkChildren_more_fuel (check fuel h) (check (fuel + k) h)).
  - done.
  - intros c X. apply IH.
  - by destruct (checkChildren (check fuel h) cs ({[s]} ∪ V)).
Qed.

(** X18: [New] looks at the steps that can be reached from the start step
    through [Unwrap] and at nothing else: two stores that hold the same
    steps there get the same answer, whatever else they hold. *)
Theorem New_depends_on_reachable_steps (h h' : gmap addr node) (root : addr) :
  (∀ t, rtc (edge h) root t → h' !! t = h !! t) →
  New S_name Mw h' root = New S_name Mw h root.
Proof.
  intros Hagree. unfold New, checkDAGCycles.
  assert (check (Datatypes.S (size h')) h' root ∅ = check (Datatypes.S (size h)) h root ∅)
    as ->; [|done].
  rewrite (check_agree _ h h') by done.
  pose proof (checkDAGCycles_fuel S_name h root) as Hh.
  pose proof (checkDAGCycles_fuel S_name h' root) as Hh'.
  unfold checkDAGCycles in *. rewrite (check_agree _ h h') in Hh' by done.
  destruct (decide (size h ≤ size h')) as [Hle|Hgt].
  - replace (Datatypes.S (size h')) with (Datatypes.S (size h) + (size h' - size h)) by lia.
    by apply check_more_fuel.
  - replace (Datatypes.S (size h)) with (Datatypes.S (size h') + (size h - size h')) by lia.
    symmetry. by apply check_more_fuel.
Qed.

(** X19: what a traversal that returns nil does to [visited]: nothing that
    was in it is taken out, and what has been added is an [ifStep] that can
    be reached from the step the traversal started at.  Without [ifStep]s
    the map comes back as it was. *)
Theorem checkDAGRecursive_visited fuel h s V V' :
  check fuel h s V = Passed V' →
  V ⊆ V' ∧
  (∀ a, a ∈ V' → a ∉ V →
     rtc (edge h) s a ∧ ∃ n, h !! a = Some n ∧ single_unwrap n = true) ∧
  (if_free_from h s → V' = V).
Proof.
  intros H. split; [by apply check_Passed in H as (_ & ? & _)|].
  split; [|intros Hf; by eapply check_Passed_if_free].
  revert s V V' H. induction fuel as [|fuel IH]; intros s V V' H; simpl in H; [done|].
  destruct (h !! s) as [n|] eqn:Hs; [|done].
  destruct (decide (s ∈ V)) as [|Hni]; [done|].
  pose proof (edge_child h s n) as Hedge. unfold unwrap_list in Hedge.
  destruct (Unwrap n) as [|c|cs] eqn:Hu.
  - injection H as <-. intros a Ha Hna. set_solver.
  - intros a Ha Hna. destruct (decide (a = s)) as [->|Hne].
    + split; [done|]. exists n. split; [done|]. unfold single_unwrap. by rewrite Hu.
    + destruct (IH _ _ _ H a Ha) as [Hr Hn]; [set_solver|].
      split; [|done]. eapply rtc_l; [|done]. apply Hedge; [done|left].
  - destruct (checkChildren _ cs _) as [V1| | |] eqn:E; try done.
    injection H as <-.
    intros a Ha Hna.
    refine (checkChildren_inv _ _
              (λ X, ∀ a, a ∈ X → a ∉ {[s]} ∪ V →
                 rtc (edge h) s a ∧ ∃ n, h !! a = Some n ∧ single_unwrap n = true)
              _ _ _ _ E a _ _); [| |set_solver..].
    + intros c Va Vb Hc HVa Hrec b Hb Hnb.
      destruct (decide (b ∈ Va)) as [Hin|Hnin]; [by apply HVa|].
      destruct (IH _ _ _ Hrec b Hb Hnin) as [Hr Hn].
      split; [|done]. eapply rtc_l; [|done]. by apply Hedge.
    + intros b Hb Hnb. done.
Qed.

End TraversalFacts.

Lemma New_depends_on_reachable_steps_witness :
  (∀ t, rtc (edge plain_series) 1%positive t →
        (<[9%positive := NIf 9%positive]> plain_series) !! t = plain_series !! t) ∧
  New "S" unit (<[9%positive := NIf 9%positive]> plain_series) 1%positive =
    New "S" unit plain_series 1%positive.
Proof.
  assert (∀ t, rtc (edge plain_series) 1%positive t →
            (<[9%positive := NIf 9%positive]> plain_series) !! t = plain_series !! t)
    as Hagree.
  { intros t Ht. apply lookup_insert_ne. intros <-.
    destruct (plain_series_closed _ Ht) as [n Hn]. discriminate. }
  split; [exact Hagree|].
  exact (New_depends_on_reachable_steps "S" unit plain_series _ 1%positive Hagree).
Defined.

Lemma checkDAGRecursive_visited_witness :
  checkDAGRecursive "S" 3 diamond_if 2%positive ∅ = Passed {[2%positive]} ∧
  (∅ : gset addr) ⊆ {[2%positive]} ∧
  (∀ a, a ∈ ({[2%positive]} : gset addr) → a ∉ (∅ : gset addr) →
     rtc (edge diamond_if) 2%positive a ∧
     ∃ n, diamond_if !! a = Some n ∧ single_unwrap n = true) ∧
  (if_free_from diamond_if 2%positive → ({[2%positive]} : gset addr) = ∅).
Proof.
  split; [reflexivity|].
  exact (checkDAGRecursive_visited "S" 3 diamond_if 2%positive ∅ {[2%positive]} eq_refl).
Defined.
